(** * rpmrevmatch: gear-keyed segmentation of a telemetry trace

    A shallow embedding of the two scripts of the repository,
    [graph.py] (config loader, segmentation loop, legend) and
    [innefficiency.py] (theoretical RPM per gear and per-gear fit),
    together with the properties stated about them.

    Numbers read from the CSV are modelled as rationals ([Q]); the gear
    column is integral ([Z]).  Floating-point rounding and NaN are outside
    the model.  Calls into pandas, numpy and matplotlib that only draw or
    fit are recorded as events; Python exceptions raised by the scripts'
    own lookups are values of [exn]. *)

From stdpp Require Import base numbers list option strings pretty gmap sorting.
From Stdlib Require Import Ascii QArith Lqa.

Open Scope Z_scope.
#[local] Set Warnings "-clear-no-such-hyp".

(** ** Python exceptions and the error monad *)

Inductive exn : Type :=
| IndexError
| KeyError (k : Z)
| ValueError
| FileNotFoundError
| UnicodeDecodeError   (* a subclass of [ValueError] *)
| OSError.             (* any [OSError] other than [FileNotFoundError] *)

Inductive result (A : Type) : Type :=
| Ok (a : A)
| Raise (e : exn).
Arguments Ok {A} a.
Arguments Raise {A} e.

#[global] Instance result_ret : MRet result := fun A a => Ok a.
#[global] Instance result_bind : MBind result := fun A B f m =>
  match m with
  | Ok a => f a
  | Raise e => Raise e
  end.
#[global] Instance result_fmap : FMap result := fun A B f m =>
  match m with
  | Ok a => Ok (f a)
  | Raise e => Raise e
  end.

(** [for x in l: s = f(s, x)], stopping at the first exception. *)
Fixpoint foldM {S A : Type} (f : S → A → result S) (l : list A) (s : S)
  : result S :=
  match l with
  | [] => Ok s
  | x :: l' => s' ← f s x; foldM f l' s'
  end.

(** ** Data model *)

(** One row of the CSV ([MPH] is only present in the file read by
    [innefficiency.py]). *)
Record Row : Type := mkRow {
  Time : Q;
  RPM : Q;
  CurrentGear : Z;
  RevMatch : Q;
  MPH : Q
}.

Abbreviation DataFrame := (list Row) (only parsing).

(** [{'time': [...], 'rpm': [...], 'gear': g}] *)
Record RpmSegment : Type := mkRpmSegment {
  rs_time : list Q;
  rs_rpm : list Q;
  rs_gear : Z
}.

(** [{'time': [...], 'revmatch': [...], 'gear': g}] *)
Record RevSegment : Type := mkRevSegment {
  vs_time : list Q;
  vs_revmatch : list Q;
  vs_gear : Z
}.

(** The sentinel [-1] of the RevMatch column. *)
Definition sentinel : Q := (-1 # 1)%Q.

(** [df.iloc[i]] for a non-negative [i]. *)
Definition iloc (df : DataFrame) (i : nat) : result Row :=
  match df !! i with
  | Some r => Ok r
  | None => Raise IndexError
  end.

(** [l[-1] = f(l[-1])]: in-place update of the last element; an empty list
    raises [IndexError]. *)
Fixpoint modify_last {A : Type} (f : A → A) (l : list A) : result (list A) :=
  match l with
  | [] => Raise IndexError
  | [x] => Ok [f x]
  | x :: l' => cons x <$> modify_last f l'
  end.

(** [l[-1]] *)
Definition py_last {A : Type} (l : list A) : result A :=
  match last l with
  | Some x => Ok x
  | None => Raise IndexError
  end.

(** ** The segmentation loop of [graph.py] (lines 53-103) *)

Module Segmenter.

Definition new_rpm_segment (row : Row) : RpmSegment :=
  {| rs_time := [Time row]; rs_rpm := [RPM row]; rs_gear := CurrentGear row |}.

Definition extend_rpm_segment (row : Row) (s : RpmSegment) : RpmSegment :=
  {| rs_time := rs_time s ++ [Time row];
     rs_rpm := rs_rpm s ++ [RPM row];
     rs_gear := rs_gear s |}.

(** Lines 60-80. *)
Definition rpm_step (df : DataFrame) (i : nat) (row : Row)
    (rpm_segments : list RpmSegment) : result (list RpmSegment) :=
  if (i =? 0)%nat then
    Ok (rpm_segments ++ [new_rpm_segment row])
  else
    prev ← iloc df (i - 1);
    if CurrentGear row =? CurrentGear prev then
      modify_last (extend_rpm_segment row) rpm_segments
    else
      Ok (rpm_segments ++ [new_rpm_segment row]).

(** [current_gear > 1 and current_revmatch != -1] (line 83). *)
Definition valid (row : Row) : bool :=
  (1 <? CurrentGear row) && negb (Qeq_bool (RevMatch row) sentinel).

Definition new_rev_segment (row : Row) : RevSegment :=
  {| vs_time := [Time row];
     vs_revmatch := [RevMatch row];
     vs_gear := CurrentGear row - 1 |}.

Definition extend_rev_segment (row : Row) (s : RevSegment) : RevSegment :=
  {| vs_time := vs_time s ++ [Time row];
     vs_revmatch := vs_revmatch s ++ [RevMatch row];
     vs_gear := vs_gear s |}.

(** The condition of line 87:
    [not revmatch_segments or (i > 0 and (prev gear != gear or prev revmatch == -1))]. *)
Definition trigger (df : DataFrame) (i : nat) (row : Row)
    (revmatch_segments : list RevSegment) : result bool :=
  match revmatch_segments with
  | [] => Ok true
  | _ :: _ =>
      if (0 <? i)%nat then
        prev ← iloc df (i - 1);
        Ok (negb (CurrentGear prev =? CurrentGear row)
            || Qeq_bool (RevMatch prev) sentinel)
      else Ok false
  end.

(** Which arm of lines 83-103 runs for sample [i]. *)
Inductive RevBranch : Type :=
| RevSkip      (* line 83 false: the sample contributes nothing *)
| RevOpen      (* line 87 true: start a new segment *)
| RevExtend    (* line 94 true: append to the last segment *)
| RevResplit.  (* line 97: last key differs, start a new segment *)

Definition revmatch_branch (df : DataFrame) (i : nat) (row : Row)
    (revmatch_segments : list RevSegment) : result RevBranch :=
  if valid row then
    t ← trigger df i row revmatch_segments;
    if t : bool then Ok RevOpen
    else
      s ← py_last revmatch_segments;
      if vs_gear s =? CurrentGear row - 1 then Ok RevExtend
      else Ok RevResplit
  else Ok RevSkip.

(** Lines 83-103. *)
Definition revmatch_step (df : DataFrame) (i : nat) (row : Row)
    (revmatch_segments : list RevSegment) : result (list RevSegment) :=
  b ← revmatch_branch df i row revmatch_segments;
  match b with
  | RevSkip => Ok revmatch_segments
  | RevOpen | RevResplit => Ok (revmatch_segments ++ [new_rev_segment row])
  | RevExtend => modify_last (extend_rev_segment row) revmatch_segments
  end.

Abbreviation State := (list RpmSegment * list RevSegment)%type (only parsing).

(** One iteration of the loop of line 53. *)
Definition body (df : DataFrame) (st : State) (i : nat) : result State :=
  row ← iloc df i;
  rpm' ← rpm_step df i row st.1;
  rev' ← revmatch_step df i row st.2;
  Ok (rpm', rev').

(** The state after the first [k] iterations. *)
Definition segmenter_upto (df : DataFrame) (k : nat) : result State :=
  foldM (body df) (seq 0 k) ([], []).

(** [for i in range(len(df))], from [rpm_segments = []] and
    [revmatch_segments = []]. *)
Definition segmenter (df : DataFrame) : result State :=
  segmenter_upto df (length df).

(** The (x, y) pairs a segment is drawn from. *)
Definition rpm_points (s : RpmSegment) : list (Q * Q) :=
  zip (rs_time s) (rs_rpm s).
Definition rev_points (s : RevSegment) : list (Q * Q) :=
  zip (vs_time s) (vs_revmatch s).

End Segmenter.

(** ** Colours and legend of [graph.py] (lines 37-43 and 124-148) *)

Module Legend.

Definition gear_colors : gmap Z string :=
  {[ 1 := "#E74C3C"; 2 := "#F39C12"; 3 := "#2ECC71";
     4 := "#3498DB"; 5 := "#9B59B6" ]}.

(** [gear_colors.get(gear, '#000000')] *)
Definition color_of (gear : Z) : string :=
  default "#000000" (gear_colors !! gear).

Inductive LineStyle : Type := Solid | Dashed.

(** [plt.Line2D([0], [0], color=..., linewidth=2, linestyle=...)] *)
Record Line2D : Type := mkLine2D {
  ln_color : string;
  ln_linestyle : LineStyle
}.

(** A legend handle: the tuple [(rpm_line,)] or [(rpm_line, revmatch_line)]. *)
Definition Handle : Type := (Line2D * option Line2D)%type.

(** [sorted(set(rpm keys + revmatch keys))] (line 125). *)
Definition all_gears (rpm_segments : list RpmSegment)
    (revmatch_segments : list RevSegment) : list Z :=
  merge_sort Z.le
    (elements (list_to_set ((rs_gear <$> rpm_segments)
                            ++ (vs_gear <$> revmatch_segments)) : gset Z)).

Definition rpm_line (gear : Z) : Line2D :=
  {| ln_color := color_of gear; ln_linestyle := Solid |}.
Definition revmatch_line (gear : Z) : Line2D :=
  {| ln_color := color_of gear; ln_linestyle := Dashed |}.

(** The body of the loop of lines 127-140. *)
Definition legend_element (revmatch_segments : list RevSegment) (gear : Z)
  : Handle :=
  if bool_decide (gear ∈ vs_gear <$> revmatch_segments) then
    (rpm_line gear, Some (revmatch_line gear))
  else
    (rpm_line gear, None).

Definition legend_elements (rpm_segments : list RpmSegment)
    (revmatch_segments : list RevSegment) : list Handle :=
  legend_element revmatch_segments
    <$> all_gears rpm_segments revmatch_segments.

Section Labels.

(** [str] of a key as the loop stored it.  [df.iloc[i]] is a row of one
    dtype: the key is an [np.int64], printed as its decimal digits, when every
    column of the CSV is integral, and an [np.float64], printed with a
    fractional part ([1.0]), as soon as one column is float. *)
Variable format_key : Z → string.

(** [f'Gear {gear}'] *)
Definition gear_label (gear : Z) : string := "Gear " +:+ format_key gear.

Definition gear_labels (rpm_segments : list RpmSegment)
    (revmatch_segments : list RevSegment) : list string :=
  gear_label <$> all_gears rpm_segments revmatch_segments.

(** The entries handed to [ax.legend(legend_elements, gear_labels, ...)]. *)
Definition legend (rpm_segments : list RpmSegment)
    (revmatch_segments : list RevSegment) : list (Handle * string) :=
  zip (legend_elements rpm_segments revmatch_segments)
      (gear_labels rpm_segments revmatch_segments).

End Labels.

End Legend.

(** ** The config loader (lines 6-28 of both scripts) *)

Module Config.

(** A Python [str]: the list of its code points. *)
Abbreviation pystr := (list N) (only parsing).

(** [c.isspace()] for one character: the characters [str.strip()] removes. *)
Definition py_isspace (c : N) : bool :=
  (((0x09 <=? c) && (c <=? 0x0D)) || ((0x1C <=? c) && (c <=? 0x20))
   || (c =? 0x85) || (c =? 0xA0) || (c =? 0x1680)
   || ((0x2000 <=? c) && (c <=? 0x200A))
   || (c =? 0x2028) || (c =? 0x2029) || (c =? 0x202F) || (c =? 0x205F)
   || (c =? 0x3000))%N.

Fixpoint lstrip (s : pystr) : pystr :=
  match s with
  | [] => []
  | c :: s' => if py_isspace c then lstrip s' else s
  end.

(** [s.strip()] *)
Definition strip (s : pystr) : pystr :=
  reverse (lstrip (reverse (lstrip s))).

(** [',' in s] *)
Fixpoint has_comma (s : pystr) : bool :=
  match s with
  | [] => false
  | c :: s' => if (c =? 0x2C)%N then true else has_comma s'
  end.

(** The truth value of a string: non-empty. *)
Definition truthy (s : pystr) : bool :=
  match s with
  | [] => false
  | _ :: _ => true
  end.

(** [[line.strip() for line in lines if ',' not in line.strip() and line.strip()]] *)
Definition config_lines (lines : list pystr) : list pystr :=
  strip <$> filter (λ line, negb (has_comma (strip line)) && truthy (strip line))
                   lines.

(** A variable is unbound, [None], or an integer. *)
Inductive PyVal : Type :=
| PyNone
| PyInt (z : Z).

Record Env : Type := mkEnv {
  min_rpm : option PyVal;
  max_rpm : option PyVal;
  stdout : list string
}.

Definition initial : Env :=
  {| min_rpm := None; max_rpm := None; stdout := [] |}.

Definition print (msg : string) (e : Env) : Env :=
  {| min_rpm := min_rpm e; max_rpm := max_rpm e; stdout := stdout e ++ [msg] |}.
Definition set_min (v : PyVal) (e : Env) : Env :=
  {| min_rpm := Some v; max_rpm := max_rpm e; stdout := stdout e |}.
Definition set_max (v : PyVal) (e : Env) : Env :=
  {| min_rpm := min_rpm e; max_rpm := Some v; stdout := stdout e |}.

Definition msg_using (lo hi : Z) : string :=
  "Using RPM limits from config.txt: " +:+ pretty lo +:+ " - " +:+ pretty hi.
Definition msg_not_enough : string :=
  "Warning: config.txt doesn't have enough valid lines, using auto-scale".
Definition msg_not_found : string :=
  "Warning: config.txt not found, using auto-scale".
Definition msg_invalid : string :=
  "Warning: Invalid RPM values in config.txt, using auto-scale".

(** Plain signed decimal literals, the fragment of [int()] used to run the
    loader on examples. *)
Fixpoint decimal_digits (acc : Z) (s : pystr) : option Z :=
  match s with
  | [] => Some acc
  | c :: s' =>
      if ((0x30 <=? c) && (c <=? 0x39))%N
      then decimal_digits (10 * acc + Z.of_N (c - 0x30)) s'
      else None
  end.

Definition decimal_int (s : pystr) : option Z :=
  match s with
  | [] => None
  | c :: s' =>
      if (c =? 0x2D)%N then
        match s' with [] => None | _ => Z.opp <$> decimal_digits 0 s' end
      else if (c =? 0x2B)%N then
        match s' with [] => None | _ => decimal_digits 0 s' end
      else decimal_digits 0 s
  end.

(** What line 7 and line 8 find on disk. *)
Inductive FileRead : Type :=
| Missing      (* there is no [config.txt]: [open] raises [FileNotFoundError] *)
| Unreadable   (* [open] or the read raises another [OSError]
                  ([PermissionError], [IsADirectoryError], ...) *)
| Content (raw : list (option pystr)).
               (* the lines of the file; [None] is a line whose bytes are not
                  valid text in the encoding *)

(** [f.readlines()]: the whole file is decoded; a line that cannot be
    decoded raises [UnicodeDecodeError] and no line is returned. *)
Fixpoint readlines (raw : list (option pystr)) : result (list pystr) :=
  match raw with
  | [] => Ok []
  | None :: _ => Raise UnicodeDecodeError
  | Some l :: rest => ls ← readlines rest; Ok (l :: ls)
  end.

(** Lines 7-8. *)
Definition open_and_read (file : FileRead) : result (list pystr) :=
  match file with
  | Missing => Raise FileNotFoundError
  | Unreadable => Raise OSError
  | Content raw => readlines raw
  end.

Section Loader.

(** Python's built-in [int] on a string; [None] stands for [ValueError]. *)
Variable py_int : pystr → option Z.

(** The body of the [try] (lines 7-20): the environment reached, and the
    exception that interrupted it, if any. *)
Definition try_body (file : FileRead) (e : Env) : Env * option exn :=
  match open_and_read file with
  | Raise err => (e, Some err)
  | Ok lines =>
      let cl := config_lines lines in
      if (2 <=? length cl)%nat then
        match py_int (default [] (cl !! 0%nat)) with
        | None => (e, Some ValueError)
        | Some lo =>
            let e1 := set_min (PyInt lo) e in
            match py_int (default [] (cl !! 1%nat)) with
            | None => (e1, Some ValueError)
            | Some hi =>
                let e2 := set_max (PyInt hi) e1 in
                (print (msg_using lo hi) e2, None)
            end
        end
      else
        (set_max PyNone (set_min PyNone (print msg_not_enough e)), None)
  end.

(** The [except] clauses (lines 21-28): [except ValueError] also catches
    its subclass [UnicodeDecodeError]; other exceptions propagate and stop
    the script. *)
Definition handlers (r : Env * option exn) : Env * option exn :=
  match r with
  | (e, Some FileNotFoundError) =>
      (set_max PyNone (set_min PyNone (print msg_not_found e)), None)
  | (e, Some ValueError) | (e, Some UnicodeDecodeError) =>
      (set_max PyNone (set_min PyNone (print msg_invalid e)), None)
  | _ => r
  end.

Definition load_config (file : FileRead) : Env * option exn :=
  handlers (try_body file initial).

End Loader.

End Config.

(** ** The ratio analysis of [innefficiency.py] (lines 30-53) *)

Module Ratio.

Definition finaldrive : Q := (61 # 15)%Q.

Definition gears : gmap Z Q :=
  {[ 1 := (37 # 11)%Q; 2 := (41 # 22)%Q; 3 := (37 # 28)%Q;
     4 := (35 # 34)%Q; 5 := (32 # 39)%Q ]}.

(** [74.38402] *)
Definition wheelCircumference : Q := (7438402 # 100000)%Q.

(** [gears[k]] *)
Definition gears_lookup (k : Z) : result Q :=
  match gears !! k with
  | Some r => Ok r
  | None => Raise (KeyError k)
  end.

(** The lambda of line 42. *)
Definition theoretical (row : Row) : result Q :=
  r ← gears_lookup (CurrentGear row);
  Ok (((1056 # 1) * MPH row * finaldrive * r) / wheelCircumference)%Q.

(** A row of [actual]: [RevMatch] is replaced by the value computed on
    line 42 (the dropped [Time] column is kept in the record and unused). *)
Definition with_theoretical (row : Row) : result Row :=
  t ← theoretical row;
  Ok {| Time := Time row; RPM := RPM row; CurrentGear := CurrentGear row;
        RevMatch := t; MPH := MPH row |}.

(** [actual.apply(..., axis=1)]: row by row, stopping at the first
    exception. *)
Fixpoint apply_rows (df : DataFrame) : result DataFrame :=
  match df with
  | [] => Ok []
  | row :: df' =>
      row' ← with_theoretical row;
      rest ← apply_rows df';
      Ok (row' :: rest)
  end.

(** [actual.groupby('CurrentGear')]: the rows of each gear, in their
    original order. *)
Definition groupby (df : DataFrame) : gmap Z (list Row) :=
  foldl (λ m row,
           <[CurrentGear row := default [] (m !! CurrentGear row) ++ [row]]> m)
        ∅ df.

(** [groups.get_group(k)] *)
Definition get_group (groups : gmap Z (list Row)) (k : Z) : result (list Row) :=
  match groups !! k with
  | Some g => Ok g
  | None => Raise (KeyError k)
  end.

Definition mph_le (a b : Row) : Prop := Qle_bool (MPH a) (MPH b).
#[global] Instance mph_le_dec : RelDecision mph_le.
Proof. intros a b. unfold mph_le. apply _. Defined.

(** [g.sort_values(by='MPH')] (the order of ties is not fixed by pandas). *)
Definition sort_values (g : list Row) : list Row := merge_sort mph_le g.

Definition insert_unique (x : Q) : list Q → list Q :=
  fix go (l : list Q) : list Q :=
    match l with
    | [] => [x]
    | y :: l' =>
        match (x ?= y)%Q with
        | Lt => x :: l
        | Eq => l
        | Gt => y :: go l'
        end
    end.

(** [np.unique]: the distinct values, ascending. *)
Definition np_unique (l : list Q) : list Q := foldr insert_unique [] l.

(** What the script asks of its libraries, in order. *)
Inductive Event : Type :=
| EvPrintDtypes
| EvPrint (g : list Row)
| EvPlot (xs ys : list Q) (color : string)
| EvPolyfit (x y : list Q) (deg : nat)
| EvPlotFitted (xs : list Q) (color : string)
| EvShow.

(** Lines 47-53 for one group. *)
Definition group_events (g0 : list Row) : list Event :=
  let g := sort_values g0 in
  [ EvPrint g;
    EvPlot (RevMatch <$> g) (MPH <$> g) "red";
    EvPolyfit (RPM <$> g) (MPH <$> g) 1;
    EvPlotFitted (np_unique (RPM <$> g)) "blue";
    EvShow ].

(** [for i in range(len(actual)): g = actual.get_group(i+1); ...]: the
    events emitted and how the loop ended. *)
Fixpoint group_loop (groups : gmap Z (list Row)) (idxs : list nat)
  : list Event * result () :=
  match idxs with
  | [] => ([], Ok ())
  | i :: rest =>
      match get_group groups (Z.of_nat i + 1) with
      | Raise e => ([], Raise e)
      | Ok g =>
          let r := group_loop groups rest in
          (group_events g ++ r.1, r.2)
      end
  end.

Definition ratio_analysis (df : DataFrame) : list Event * result () :=
  match apply_rows df with
  | Raise e => ([EvPrintDtypes], Raise e)
  | Ok actual =>
      let groups := groupby actual in
      let r := group_loop groups (seq 0 (size groups)) in
      (EvPrintDtypes :: r.1, r.2)
  end.

End Ratio.

(** ** Vocabulary of the properties *)

Module Props.
Import Segmenter.

(** The samples paired with their positions. *)
Definition indexed (df : DataFrame) : list (nat * Row) := imap pair df.

Definition sample_point (row : Row) : Q * Q := (Time row, RPM row).

Definition gear_at (df : DataFrame) (i : nat) : option Z :=
  CurrentGear <$> df !! i.

(** Gear-change events: the indices [i > 0] with [gear[i] != gear[i-1]]. *)
Definition change_indices (df : DataFrame) : list nat :=
  filter (λ i, gear_at df i ≠ gear_at df (i - 1)) (seq 1 (length df - 1)).

Definition gear_changes (df : DataFrame) : nat := length (change_indices df).

(** The new-segment condition of RevMatch segmentation for sample [i]:
    no segment yet, or the previous sample has another gear, or the previous
    sample's revmatch is the sentinel. *)
Definition opens (df : DataFrame) (i : nat) (row : Row)
    (revmatch_segments : list RevSegment) : Prop :=
  revmatch_segments = [] ∨
  ∃ prev, (0 < i)%nat ∧ df !! (i - 1)%nat = Some prev ∧
          (CurrentGear prev ≠ CurrentGear row ∨ (RevMatch prev == sentinel)%Q).

(** A RevMatch segment drawn from the indexed samples [g], all of whose
    gears are the segment's key plus one. *)
Definition drawn_from (g : list (nat * Row)) (s : RevSegment) : Prop :=
  vs_time s = (Time ∘ snd) <$> g ∧
  vs_revmatch s = (RevMatch ∘ snd) <$> g ∧
  Forall (λ p, vs_gear s = CurrentGear p.2 - 1) g.

(** An RPM segment drawn from the non-empty run [g] of indexed samples, all
    of whose gears are the segment's key. *)
Definition rpm_drawn_from (g : list (nat * Row)) (s : RpmSegment) : Prop :=
  g ≠ [] ∧
  rs_time s = (Time ∘ snd) <$> g ∧
  rs_rpm s = (RPM ∘ snd) <$> g ∧
  Forall (λ p, rs_gear s = CurrentGear p.2) g.

(** The indexed samples that satisfy the validity predicate, in order. *)
Definition valid_samples (df : DataFrame) : list (nat * Row) :=
  filter (λ p, valid p.2 = true) (indexed df).

(** Among the first [k] indices, those that start an RPM segment: index 0
    and the gear changes. *)
Definition segment_starts (df : DataFrame) (k : nat) : list nat :=
  filter (λ i, i = 0%nat ∨ gear_at df i ≠ gear_at df (i - 1)) (seq 0 k).

(** The RPM half of the loop on its own. *)
Definition rpm_upto (df : DataFrame) (k : nat) : result (list RpmSegment) :=
  foldM (λ segs i, row ← iloc df i; rpm_step df i row segs) (seq 0 k) [].

(** A sample given by its columns. *)
Definition sample (t rpm : Q) (gear : Z) (revmatch : Q) : Row :=
  {| Time := t; RPM := rpm; CurrentGear := gear; RevMatch := revmatch;
     MPH := 0%Q |}.

(** A text given by its ASCII characters, and the same text ended by a
    newline, as [readlines()] returns a line. *)
Definition text (s : string) : Config.pystr :=
  N_of_ascii <$> String.list_ascii_of_string s.
Definition line (s : string) : Config.pystr := text s ++ [0x0A%N].

(** The two ways a key is printed: from an integer row and from a float
    row. *)
Definition format_int (k : Z) : string := pretty k.
Definition format_float (k : Z) : string := pretty k +:+ ".0".

(** The colours of lines 37-43, gear by gear, with black for any other
    key. *)
Definition palette (k : Z) : string :=
  if decide (k = 1) then "#E74C3C"
  else if decide (k = 2) then "#F39C12"
  else if decide (k = 3) then "#2ECC71"
  else if decide (k = 4) then "#3498DB"
  else if decide (k = 5) then "#9B59B6"
  else "#000000".

(** The comma, and the characters Python counts as whitespace. *)
Definition comma : N := 0x2C%N.
Definition unicode_whitespace : list N :=
  [0x09; 0x0A; 0x0B; 0x0C; 0x0D; 0x1C; 0x1D; 0x1E; 0x1F; 0x20; 0x85; 0xA0;
   0x1680; 0x2000; 0x2001; 0x2002; 0x2003; 0x2004; 0x2005; 0x2006; 0x2007;
   0x2008; 0x2009; 0x200A; 0x2028; 0x2029; 0x202F; 0x205F; 0x3000]%N.
Definition whitespace (c : N) : Prop := c ∈ unicode_whitespace.

(** [s] is [l] without its leading and trailing whitespace. *)
Definition is_strip_of (l s : Config.pystr) : Prop :=
  ∃ pre post,
    l = pre ++ s ++ post ∧
    Forall whitespace pre ∧ Forall whitespace post ∧
    (∀ c, head s = Some c → ¬ whitespace c) ∧
    (∀ c, last s = Some c → ¬ whitespace c).

(** [cl] lists, in file order and stripped, the lines that are not blank and
    hold no comma. *)
Inductive config_lines_of : list Config.pystr → list Config.pystr → Prop :=
| config_lines_of_nil : config_lines_of [] []
| config_lines_of_keep l s ls cl :
    is_strip_of l s → s ≠ [] → comma ∉ s →
    config_lines_of ls cl → config_lines_of (l :: ls) (s :: cl)
| config_lines_of_drop l s ls cl :
    is_strip_of l s → s = [] ∨ comma ∈ s →
    config_lines_of ls cl → config_lines_of (l :: ls) cl.

(** A line that is blank or holds a comma, and a line that is neither. *)
Definition blank_or_comma (x : Config.pystr) : Prop :=
  Forall whitespace x ∨ comma ∈ x.
Definition is_config_line (x : Config.pystr) : Prop :=
  ¬ Forall whitespace x ∧ comma ∉ x.

(** The file starts with decodable lines whose first two non-blank,
    comma-free lines are [l0] and [l1]. *)
Definition first_two (raw : list (option Config.pystr))
    (l0 l1 : Config.pystr) : Prop :=
  ∃ lines rest cl,
    raw = (Some <$> lines) ++ rest ∧ config_lines_of lines (l0 :: l1 :: cl).

(** "If the file exists and its first two non-comma, non-blank lines parse
    as integers, they become the two bounds." *)
Definition claimed_success (py_int : Config.pystr → option Z)
    (file : Config.FileRead) : Prop :=
  ∀ raw l0 l1 lo hi,
    file = Config.Content raw →
    first_two raw l0 l1 →
    py_int l0 = Some lo → py_int l1 = Some hi →
    Config.min_rpm (Config.load_config py_int file).1 = Some (Config.PyInt lo) ∧
    Config.max_rpm (Config.load_config py_int file).1 = Some (Config.PyInt hi).

(** The variable holds an integer. *)
Definition is_bound (v : option Config.PyVal) : Prop :=
  ∃ z, v = Some (Config.PyInt z).

(** Every gear of the data is a key of the ratio table. *)
Definition in_table (df : DataFrame) : Prop :=
  Forall (λ row, is_Some (Ratio.gears !! CurrentGear row)) df.

(** The gears that occur in the data, and the dense numbering [1..n]. *)
Definition gears_present (df : DataFrame) : gset Z :=
  list_to_set (CurrentGear <$> df).
Definition dense (n : nat) : gset Z := list_to_set (Z.of_nat <$> seq 1 n).

Definition rows_of_gear (df : DataFrame) (k : Z) : list Row :=
  filter (λ row, CurrentGear row = k) df.

(** The events of the groups [1..n] of [actual], in order. *)
Definition events_upto (actual : DataFrame) (n : nat) : list Ratio.Event :=
  i ← seq 0 n; Ratio.group_events (rows_of_gear actual (Z.of_nat i + 1)).


End Props.

(** ** Drawing the segments and scaling the axis ([graph.py], lines 105-119
    and 159-165) *)

Module Render.

(** One call [ax.plot(x, y, color=..., linestyle=..., zorder=...)]. *)
Record PlotCall : Type := mkPlotCall {
  pc_x : list Q;
  pc_y : list Q;
  pc_color : string;
  pc_linestyle : Legend.LineStyle;
  pc_zorder : Z
}.

(** [ax.plot] refuses x and y of different lengths with a [ValueError]. *)
Definition ax_plot (x y : list Q) (color : string)
    (linestyle : Legend.LineStyle) (zorder : Z) : result PlotCall :=
  if (length x =? length y)%nat then
    Ok {| pc_x := x; pc_y := y; pc_color := color;
          pc_linestyle := linestyle; pc_zorder := zorder |}
  else Raise ValueError.

(** [for segment in segments: ax.plot(...)], stopping at the first
    exception. *)
Fixpoint plot_each {A : Type} (plot : A → result PlotCall) (segments : list A)
  : result (list PlotCall) :=
  match segments with
  | [] => Ok []
  | s :: rest =>
      c ← plot s;
      cs ← plot_each plot rest;
      Ok (c :: cs)
  end.

(** Lines 106-110. *)
Definition plot_rpm_segment (s : RpmSegment) : result PlotCall :=
  ax_plot (rs_time s) (rs_rpm s) (Legend.color_of (rs_gear s)) Legend.Solid 1.

(** Lines 113-119. *)
Definition plot_revmatch_segment (s : RevSegment) : result PlotCall :=
  ax_plot (vs_time s) (vs_revmatch s) (Legend.color_of (vs_gear s))
          Legend.Dashed 2.

(** Lines 105-119: the RPM segments, then the RevMatch segments. *)
Definition plot_segments (rpm_segments : list RpmSegment)
    (revmatch_segments : list RevSegment) : result (list PlotCall) :=
  solid ← plot_each plot_rpm_segment rpm_segments;
  dashed ← plot_each plot_revmatch_segment revmatch_segments;
  Ok (solid ++ dashed).

Inductive YAxis : Type :=
| SetYlim (lo hi : Z)   (* [ax.set_ylim(min_rpm, max_rpm)] *)
| Autoscale.            (* [ax.autoscale(enable=True, axis='y', tight=True)] *)

Definition msg_ylim (lo hi : Z) : string :=
  "Y-axis set to: " +:+ pretty lo +:+ " - " +:+ pretty hi +:+ " RPM".
Definition msg_autoscale : string :=
  "Y-axis auto-scaled (config.txt not available or invalid)".

(** Lines 160-165: the call made on the y axis and the line printed once
    that call has returned; [None] stands for the [NameError] of reading an
    unbound variable.  The test
    [min_rpm is not None and max_rpm is not None] reads [max_rpm] only when
    [min_rpm] is not [None]. *)
Definition y_axis (e : Config.Env) : option (YAxis * string) :=
  match Config.min_rpm e with
  | None => None
  | Some Config.PyNone => Some (Autoscale, msg_autoscale)
  | Some (Config.PyInt lo) =>
      match Config.max_rpm e with
      | None => None
      | Some Config.PyNone => Some (Autoscale, msg_autoscale)
      | Some (Config.PyInt hi) => Some (SetYlim lo hi, msg_ylim lo hi)
      end
  end.

End Render.

(** ** The closing diagnostics of [graph.py] (lines 180-183) *)

Module Diagnostics.

(** [sorted(df['CurrentGear'].unique())] *)
Definition gears_printed (df : DataFrame) : list Z :=
  merge_sort Z.le (remove_dups (CurrentGear <$> df)).

(** [Series.min()] and [Series.max()]; [None] stands for the [nan] of an
    empty series. *)
Definition series_min (l : list Q) : option Q :=
  foldr (λ x acc, match acc with
                  | None => Some x
                  | Some m => Some (if Qle_bool x m then x else m)
                  end) None l.
Definition series_max (l : list Q) : option Q :=
  foldr (λ x acc, match acc with
                  | None => Some x
                  | Some m => Some (if Qle_bool m x then x else m)
                  end) None l.

(** [df[df['RevMatch'] != -1]['RevMatch']] *)
Definition revmatch_kept (df : DataFrame) : list Q :=
  filter (λ x, Qeq_bool x sentinel = false) (RevMatch <$> df).

(** Line 183: the two numbers of the "RevMatch range" line. *)
Definition revmatch_range (df : DataFrame) : option Q * option Q :=
  (series_min (revmatch_kept df), series_max (revmatch_kept df)).

End Diagnostics.

(** ** Further vocabulary *)

Module MoreProps.
Import Segmenter Props.

(** No two neighbours of a list are equal. *)
Definition neighbours_differ (keys : list Z) : Prop :=
  ∀ l1 a b l2, keys = l1 ++ a :: b :: l2 → a ≠ b.

(** [b] is [a] after more loop iterations: all but the last element of [a]
    are kept as they are, the last one may have grown (as [R] says), and
    elements may have been added behind it. *)
Definition grows {A : Type} (R : A → A → Prop) (a b : list A) : Prop :=
  a = [] ∨ ∃ l s s' ext, a = l ++ [s] ∧ b = l ++ s' :: ext ∧ R s s'.

Definition rpm_segment_grows (s s' : RpmSegment) : Prop :=
  rs_gear s' = rs_gear s ∧
  rs_time s `prefix_of` rs_time s' ∧ rs_rpm s `prefix_of` rs_rpm s'.
Definition rev_segment_grows (s s' : RevSegment) : Prop :=
  vs_gear s' = vs_gear s ∧
  vs_time s `prefix_of` vs_time s' ∧ vs_revmatch s `prefix_of` vs_revmatch s'.

(** Two rows that agree on the columns the RPM segmentation reads. *)
Definition same_rpm_columns (r r' : Row) : Prop :=
  Time r = Time r' ∧ RPM r = RPM r' ∧ CurrentGear r = CurrentGear r'.

End MoreProps.

(** * Properties *)

Import Segmenter Props MoreProps.

(** ** Running the model *)

Example segmenter_sample :
  segmenter [sample 0 900 1 sentinel; sample 1 2100 2 (1500 # 1);
             sample 2 2300 2 (1600 # 1); sample 3 1800 3 sentinel;
             sample 4 1900 3 (2600 # 1)]
  = Ok ([ {| rs_time := [0]; rs_rpm := [900]; rs_gear := 1 |};
          {| rs_time := [1; 2]; rs_rpm := [2100; 2300]; rs_gear := 2 |};
          {| rs_time := [3; 4]; rs_rpm := [1800; 1900]; rs_gear := 3 |} ],
        [ {| vs_time := [1; 2]; vs_revmatch := [1500; 1600]; vs_gear := 1 |};
          {| vs_time := [4]; vs_revmatch := [2600]; vs_gear := 2 |} ])%Q.
Proof. reflexivity. Qed.

Example legend_sample :
  Legend.legend format_float
                [mkRpmSegment [] [] 3; mkRpmSegment [] [] 1; mkRpmSegment [] [] 3]
                [mkRevSegment [] [] 2; mkRevSegment [] [] 7]
  = [ ((Legend.rpm_line 1, None), "Gear 1.0");
      ((Legend.rpm_line 2, Some (Legend.revmatch_line 2)), "Gear 2.0");
      ((Legend.rpm_line 3, None), "Gear 3.0");
      (({| Legend.ln_color := "#000000"; Legend.ln_linestyle := Legend.Solid |},
        Some {| Legend.ln_color := "#000000";
                Legend.ln_linestyle := Legend.Dashed |}), "Gear 7.0") ].
Proof. vm_compute. reflexivity. Qed.

Example strip_sample :
  Config.strip ([0xA0; 0x20]%N ++ text "10 00" ++ [0x09; 0x3000; 0x0A]%N)
  = text "10 00".
Proof. vm_compute. reflexivity. Qed.

Example load_config_sample :
  Config.load_config Config.decimal_int
    (Config.Content [Some (line "# min,max"); Some (line " 1000 ");
                     Some [0xA0; 0x0A]%N; Some (line "7000"); Some (line "9")])
  = ({| Config.min_rpm := Some (Config.PyInt 1000);
        Config.max_rpm := Some (Config.PyInt 7000);
        Config.stdout := ["Using RPM limits from config.txt: 1000 - 7000"] |},
     None).
Proof. vm_compute. reflexivity. Qed.

Example load_config_second_line_invalid :
  Config.load_config Config.decimal_int
    (Config.Content [Some (line "1000"); Some (line "7000rpm")])
  = ({| Config.min_rpm := Some Config.PyNone;
        Config.max_rpm := Some Config.PyNone;
        Config.stdout := [Config.msg_invalid] |},
     None).
Proof. vm_compute. reflexivity. Qed.

Example load_config_unreadable :
  Config.load_config Config.decimal_int Config.Unreadable
  = (Config.initial, Some OSError).
Proof. reflexivity. Qed.

Example ratio_gap_sample :
  (Ratio.ratio_analysis [mkRow 0 3000 1 0 10; mkRow 0 3000 3 0 5]%Q).2
  = Raise (KeyError 2).
Proof. vm_compute. reflexivity. Qed.

(** ** The error monad and list helpers *)

Lemma foldM_app {S A : Type} (f : S → A → result S) (l1 l2 : list A) (s : S) :
  foldM f (l1 ++ l2) s = foldM f l1 s ≫= foldM f l2.
Proof.
  revert s. induction l1 as [|x l1 IH]; intros s; simpl; [done|].
  destruct (f s x) as [s'|e]; simpl; [apply IH|done].
Qed.

Lemma modify_last_snoc {A : Type} (f : A → A) (l : list A) (x : A) :
  modify_last f (l ++ [x]) = Ok (l ++ [f x]).
Proof.
  induction l as [|y l IH]; [done|].
  change ((y :: l) ++ [x]) with (y :: (l ++ [x])).
  simpl modify_last. rewrite IH.
  destruct (l ++ [x]) eqn:E; [by destruct l|done].
Qed.

Lemma snoc_cases {A : Type} (l : list A) :
  l = [] ∨ ∃ l' x, l = l' ++ [x].
Proof.
  induction l as [|x l _] using rev_ind; [by left|right; eauto].
Qed.

Lemma snoc_not_nil {A : Type} (l : list A) (x : A) : l ++ [x] ≠ [].
Proof. destruct l; discriminate. Qed.

Lemma py_last_snoc {A : Type} (l : list A) (x : A) :
  py_last (l ++ [x]) = Ok x.
Proof. unfold py_last. by rewrite last_snoc. Qed.

Lemma iloc_Some (df : DataFrame) (i : nat) (r : Row) :
  df !! i = Some r → iloc df i = Ok r.
Proof. unfold iloc. by intros ->. Qed.

Lemma iloc_Ok (df : DataFrame) (i : nat) (r : Row) :
  iloc df i = Ok r → df !! i = Some r.
Proof. unfold iloc. destruct (df !! i); naive_solver. Qed.

(** ** One iteration *)

Lemma segmenter_upto_0 (df : DataFrame) : segmenter_upto df 0 = Ok ([], []).
Proof. done. Qed.

Lemma segmenter_upto_S (df : DataFrame) (k : nat) :
  segmenter_upto df (S k) = segmenter_upto df k ≫= λ st, body df st k.
Proof.
  unfold segmenter_upto. rewrite seq_S, foldM_app. simpl.
  destruct (foldM (body df) (seq 0 k) ([], [])) as [st|e]; simpl; [|done].
  by destruct (body df st k).
Qed.

(** What a successful iteration did. *)
Lemma segmenter_upto_S_Ok (df : DataFrame) (k : nat) (st' : State) :
  segmenter_upto df (S k) = Ok st' →
  ∃ st row, segmenter_upto df k = Ok st ∧ df !! k = Some row ∧
            rpm_step df k row st.1 = Ok st'.1 ∧
            revmatch_step df k row st.2 = Ok st'.2.
Proof.
  rewrite segmenter_upto_S.
  destruct (segmenter_upto df k) as [st|e]; simpl; [|done].
  unfold body. destruct (iloc df k) as [row|e] eqn:Hrow; simpl; [|done].
  destruct (rpm_step df k row st.1) as [rpm'|e] eqn:Hrpm; simpl; [|done].
  destruct (revmatch_step df k row st.2) as [rev'|e] eqn:Hrev; simpl; [|done].
  intros [= <-]. exists st, row. split_and!; eauto using iloc_Ok.
Qed.

Lemma rpm_step_Ok (df : DataFrame) (k : nat) (row : Row)
    (segs segs' : list RpmSegment) :
  df !! k = Some row →
  rpm_step df k row segs = Ok segs' →
  (segs' = segs ++ [new_rpm_segment row] ∧
   (k = 0%nat ∨ k ≠ 0%nat ∧ gear_at df k ≠ gear_at df (k - 1)))
  ∨ (∃ l s, k ≠ 0%nat ∧ gear_at df k = gear_at df (k - 1) ∧
            segs = l ++ [s] ∧ segs' = l ++ [extend_rpm_segment row s]).
Proof.
  intros Hrow. unfold rpm_step, gear_at. rewrite Hrow.
  destruct (Nat.eqb_spec k 0) as [->|Hk]; [naive_solver|].
  destruct (iloc df (k - 1)) as [prev|e] eqn:Hprev; simpl; [|done].
  apply iloc_Ok in Hprev. rewrite Hprev. simpl.
  destruct (Z.eqb_spec (CurrentGear row) (CurrentGear prev)) as [Heq|Hne].
  - destruct (snoc_cases segs) as [->|(l & s & ->)]; [done|].
    rewrite modify_last_snoc. intros [= <-]. right. exists l, s.
    by rewrite Heq.
  - intros [= <-]. left. split; [done|]. right. split; [done|]. congruence.
Qed.

Lemma rpm_step_total (df : DataFrame) (k : nat) (row : Row)
    (segs : list RpmSegment) :
  k = 0%nat ∨ is_Some (df !! (k - 1)%nat) ∧ segs ≠ [] →
  ∃ segs', rpm_step df k row segs = Ok segs' ∧ segs' ≠ [].
Proof.
  assert (∀ x : RpmSegment,
    ∃ segs', Ok (segs ++ [x]) = Ok segs' ∧ segs' ≠ []) as Hsnoc.
  { intros x. eexists. split; [done|apply snoc_not_nil]. }
  unfold rpm_step. intros [->|[[prev Hprev] Hne]]; [apply Hsnoc|].
  destruct (k =? 0)%nat; [apply Hsnoc|].
  rewrite (iloc_Some _ _ _ Hprev). simpl.
  destruct (CurrentGear row =? CurrentGear prev); [|apply Hsnoc].
  destruct (snoc_cases segs) as [->|(l & s & ->)]; [done|].
  rewrite modify_last_snoc. eexists. split; [done|apply snoc_not_nil].
Qed.

Lemma valid_spec (row : Row) :
  valid row = true ↔ 1 < CurrentGear row ∧ ¬ (RevMatch row == sentinel)%Q.
Proof.
  unfold valid. rewrite andb_true_iff, negb_true_iff, Z.ltb_lt.
  rewrite <- Qeq_bool_iff. destruct (Qeq_bool _ _); naive_solver.
Qed.

Lemma trigger_spec (df : DataFrame) (k : nat) (row : Row)
    (segs : list RevSegment) :
  k = 0%nat ∨ is_Some (df !! (k - 1)%nat) →
  ∃ t, trigger df k row segs = Ok t ∧ (t = true ↔ opens df k row segs).
Proof.
  unfold trigger, opens. intros Hk.
  destruct segs as [|s segs]; [exists true; naive_solver|].
  destruct (Nat.ltb_spec 0 k) as [Hpos|Hzero].
  - destruct Hk as [->|[prev Hprev]]; [lia|].
    rewrite (iloc_Some _ _ _ Hprev). simpl. eexists. split; [done|].
    rewrite orb_true_iff, negb_true_iff, Z.eqb_neq, Qeq_bool_iff.
    split; [intros H; right; exists prev; done|].
    intros [?|(prev' & _ & Hprev' & H)]; [done|]. congruence.
  - exists false. split; [done|]. split; [done|].
    intros [?|(prev & ? & _)]; [done|lia].
Qed.

(** The three ways a valid sample is handled. *)
Lemma revmatch_step_cases (df : DataFrame) (k : nat) (row : Row)
    (segs : list RevSegment) :
  k = 0%nat ∨ is_Some (df !! (k - 1)%nat) →
  valid row = true →
  (opens df k row segs ∧
   revmatch_branch df k row segs = Ok RevOpen ∧
   revmatch_step df k row segs = Ok (segs ++ [new_rev_segment row]))
  ∨ (¬ opens df k row segs ∧ ∃ l s, segs = l ++ [s] ∧
     (vs_gear s = CurrentGear row - 1 ∧
      revmatch_branch df k row segs = Ok RevExtend ∧
      revmatch_step df k row segs = Ok (l ++ [extend_rev_segment row s])
      ∨ vs_gear s ≠ CurrentGear row - 1 ∧
        revmatch_branch df k row segs = Ok RevResplit ∧
        revmatch_step df k row segs = Ok (segs ++ [new_rev_segment row]))).
Proof.
  intros Hk Hvalid.
  destruct (trigger_spec df k row segs Hk) as (t & Ht & Hiff).
  unfold revmatch_step, revmatch_branch. rewrite Hvalid, Ht. simpl.
  destruct t; [left; naive_solver|].
  right. split; [naive_solver|].
  destruct (snoc_cases segs) as [->|(l & s & ->)].
  { exfalso. assert (false = true); [|done]. apply Hiff. by left. }
  exists l, s. split; [done|]. rewrite py_last_snoc. simpl.
  destruct (Z.eqb_spec (vs_gear s) (CurrentGear row - 1)); simpl.
  - left. by rewrite modify_last_snoc.
  - by right.
Qed.

Lemma revmatch_step_skip (df : DataFrame) (k : nat) (row : Row)
    (segs : list RevSegment) :
  valid row = false →
  revmatch_branch df k row segs = Ok RevSkip ∧
  revmatch_step df k row segs = Ok segs.
Proof. intros H. unfold revmatch_step, revmatch_branch. by rewrite H. Qed.

Lemma revmatch_step_total (df : DataFrame) (k : nat) (row : Row)
    (segs : list RevSegment) :
  k = 0%nat ∨ is_Some (df !! (k - 1)%nat) →
  ∃ segs', revmatch_step df k row segs = Ok segs'.
Proof.
  intros Hk. destruct (valid row) eqn:Hvalid.
  - destruct (revmatch_step_cases df k row segs Hk Hvalid)
      as [(_ & _ & ->)|(_ & l & s & _ & [(_ & _ & ->)|(_ & _ & ->)])]; eauto.
  - destruct (revmatch_step_skip df k row segs Hvalid) as [_ ->]. eauto.
Qed.

Lemma lookup_pred (df : DataFrame) (k : nat) :
  (k < length df)%nat → k = 0%nat ∨ is_Some (df !! (k - 1)%nat).
Proof.
  intros Hk. destruct k; [by left|right].
  apply lookup_lt_is_Some. lia.
Qed.

(** ** The loop never raises *)

Lemma segmenter_upto_total (df : DataFrame) (k : nat) :
  (k ≤ length df)%nat →
  ∃ st, segmenter_upto df k = Ok st ∧ ((0 < k)%nat → st.1 ≠ []).
Proof.
  induction k as [|k IH]; intros Hk.
  { exists ([], []). split; [done|lia]. }
  destruct IH as (st & Hst & Hne); [lia|].
  destruct (lookup_lt_is_Some_2 df k) as [row Hrow]; [lia|].
  destruct (rpm_step_total df k row st.1) as (rpm' & Hrpm & Hrpm').
  { destruct (lookup_pred df k) as [->|?]; [lia|by left|].
    destruct k; [by left|right]. split; [done|]. apply Hne. lia. }
  destruct (revmatch_step_total df k row st.2) as (rev' & Hrev).
  { apply lookup_pred. lia. }
  exists (rpm', rev'). split; [|done].
  rewrite segmenter_upto_S, Hst. simpl. unfold body.
  rewrite (iloc_Some _ _ _ Hrow). simpl. rewrite Hrpm. simpl.
  by rewrite Hrev.
Qed.

Lemma segmenter_total (df : DataFrame) :
  ∃ rpm rev, segmenter df = Ok (rpm, rev).
Proof.
  destruct (segmenter_upto_total df (length df)) as ([rpm rev] & H & _);
    [done|]. by exists rpm, rev.
Qed.

(** ** The key of the last RevMatch segment *)

(** After a valid sample, the last RevMatch segment carries its key. *)
Lemma rev_last_key (df : DataFrame) (k : nat) (st : State) (prev : Row) :
  segmenter_upto df (S k) = Ok st →
  df !! k = Some prev →
  valid prev = true →
  ∃ l s, st.2 = l ++ [s] ∧ vs_gear s = CurrentGear prev - 1.
Proof.
  intros Hst Hprev Hvalid.
  destruct (segmenter_upto_S_Ok df k st Hst) as (st0 & row & _ & Hrow & _ & Hrev).
  assert (row = prev) as -> by congruence.
  destruct (revmatch_step_cases df k prev st0.2) as
    [(_ & _ & Hs)|(_ & l & s & Hl & [(Hkey & _ & Hs)|(_ & _ & Hs)])];
    [apply lookup_pred; by eapply lookup_lt_Some|done|..];
    rewrite Hs in Hrev; injection Hrev as <-.
  - by exists st0.2, (new_rev_segment prev).
  - by exists l, (extend_rev_segment prev s).
  - by exists st0.2, (new_rev_segment prev).
Qed.

(** A valid sample that does not meet the new-segment condition finds its
    own key on the last segment. *)
Lemma no_trigger_same_key (df : DataFrame) (k : nat) (st : State) (row : Row) :
  segmenter_upto df k = Ok st →
  df !! k = Some row →
  valid row = true →
  ¬ opens df k row st.2 →
  ∃ l s, st.2 = l ++ [s] ∧ vs_gear s = CurrentGear row - 1.
Proof.
  intros Hst Hrow Hvalid Hno.
  destruct k as [|k].
  { exfalso. apply Hno. left. rewrite segmenter_upto_0 in Hst. by injection Hst as <-. }
  destruct (lookup_lt_is_Some_2 df k) as [prev Hprev].
  { apply lookup_lt_Some in Hrow. lia. }
  assert (CurrentGear prev = CurrentGear row ∧ ¬ (RevMatch prev == sentinel)%Q)
    as [Hgear Hrm].
  { split.
    - destruct (decide (CurrentGear prev = CurrentGear row)) as [|Hne]; [done|].
      exfalso. apply Hno. right. exists prev. split; [lia|].
      split; [by rewrite Nat.sub_1_r|by left].
    - intros Heq. apply Hno. right. exists prev. split; [lia|].
      split; [by rewrite Nat.sub_1_r|by right]. }
  apply valid_spec in Hvalid as [Hgt _].
  destruct (rev_last_key df k st prev Hst Hprev) as (l & s & Hl & Hkey).
  { apply valid_spec. split; [lia|done]. }
  exists l, s. split; [done|]. by rewrite Hkey, Hgear.
Qed.

(** ** What the RPM segments hold *)

Lemma rpm_points_inv (df : DataFrame) (k : nat) (st : State) :
  segmenter_upto df k = Ok st →
  concat (rpm_points <$> st.1) = sample_point <$> take k df ∧
  Forall (λ s, length (rs_time s) = length (rs_rpm s)) st.1.
Proof.
  revert st. induction k as [|k IH]; intros [rpm rev] Hst.
  { rewrite segmenter_upto_0 in Hst. injection Hst as <- <-. by rewrite take_0. }
  destruct (segmenter_upto_S_Ok df k _ Hst)
    as ([rpm0 rev0] & row & Hst0 & Hrow & Hrpm & _).
  destruct (IH _ Hst0) as [Hcat Hlen]. simpl in *.
  rewrite (take_S_r _ _ _ Hrow), fmap_app, <- Hcat. simpl.
  destruct (rpm_step_Ok df k row _ _ Hrow Hrpm)
    as [[-> _]|(l & s & _ & _ & -> & ->)].
  - rewrite fmap_app, concat_app. simpl. split; [done|].
    rewrite Forall_app, Forall_singleton. done.
  - rewrite Forall_app, Forall_singleton in Hlen. destruct Hlen as [Hlen Hs].
    rewrite !fmap_app, !concat_app. simpl.
    rewrite !app_nil_r, <- app_assoc. split.
    + f_equal. unfold rpm_points. simpl. by rewrite zip_with_app.
    + rewrite Forall_app, Forall_singleton. split; [done|]. simpl.
      rewrite !length_app. simpl. lia.
Qed.

Lemma Forall2_snoc_inv_r {A B : Type} (P : A → B → Prop)
    (l : list A) (k : list B) (y : B) :
  Forall2 P l (k ++ [y]) →
  ∃ l' x, l = l' ++ [x] ∧ Forall2 P l' k ∧ P x y.
Proof.
  intros (l1 & l2 & H1 & H2 & ->)%Forall2_app_inv_r.
  apply Forall2_cons_inv_r in H2 as (x & l2' & Hx & Hnil & ->).
  apply Forall2_nil_inv_r in Hnil as ->. by exists l1, x.
Qed.

Lemma segment_starts_S (df : DataFrame) (k : nat) :
  segment_starts df (S k) =
  segment_starts df k
  ++ (if decide (k = 0%nat ∨ gear_at df k ≠ gear_at df (k - 1)) then [k] else []).
Proof. unfold segment_starts. by rewrite seq_S, filter_app. Qed.

(** The RPM segments start at index 0 and at the gear changes, and are keyed
    by the gear found there. *)
Lemma rpm_keys_inv (df : DataFrame) (k : nat) (st : State) :
  segmenter_upto df k = Ok st →
  Forall2 (λ i s, gear_at df i = Some (rs_gear s)) (segment_starts df k) st.1.
Proof.
  revert st. induction k as [|k IH]; intros [rpm rev] Hst.
  { rewrite segmenter_upto_0 in Hst. injection Hst as <- <-. constructor. }
  destruct (segmenter_upto_S_Ok df k _ Hst)
    as ([rpm0 rev0] & row & Hst0 & Hrow & Hrpm & _).
  specialize (IH _ Hst0). simpl in *. rewrite segment_starts_S.
  destruct (rpm_step_Ok df k row _ _ Hrow Hrpm)
    as [[-> Hk]|(l & s & Hk & Hsame & -> & ->)].
  - rewrite decide_True by naive_solver.
    apply Forall2_app; [done|]. repeat constructor.
    unfold gear_at. by rewrite Hrow.
  - rewrite decide_False by naive_solver. rewrite app_nil_r.
    apply Forall2_snoc_inv_r in IH as (is' & i & -> & Hl & Hi).
    apply Forall2_app; [done|]. by repeat constructor.
Qed.

Lemma filter_iff_elem {A : Type} (P1 P2 : A → Prop)
    `{!∀ x, Decision (P1 x), !∀ x, Decision (P2 x)} (l : list A) :
  (∀ x, x ∈ l → (P1 x ↔ P2 x)) → filter P1 l = filter P2 l.
Proof.
  induction l as [|a l IH]; intros Hiff; [done|].
  rewrite !filter_cons.
  rewrite IH by (intros x Hx; apply Hiff; by right).
  destruct (decide (P1 a)) as [H1|H1], (decide (P2 a)) as [H2|H2];
    try done; exfalso; apply (Hiff a) in H1 || apply (Hiff a) in H2;
    done || by left.
Qed.

Lemma segment_starts_length (df : DataFrame) :
  df ≠ [] → segment_starts df (length df) = 0%nat :: change_indices df.
Proof.
  intros Hne. unfold segment_starts, change_indices.
  destruct df as [|r df]; [done|]. simpl length.
  replace (S (length df) - 1)%nat with (length df) by lia.
  change (seq 0 (S (length df))) with (0%nat :: seq 1 (length df)).
  rewrite filter_cons_True by (by left). f_equal.
  apply filter_iff_elem. intros i Hi%elem_of_seq. split; [|by right].
  intros [->|?]; [lia|done].
Qed.

(** ** Where the RevMatch points come from *)

Lemma indexed_take_S (df : DataFrame) (k : nat) (row : Row) :
  df !! k = Some row →
  indexed (take (S k) df) = indexed (take k df) ++ [(k, row)].
Proof.
  intros Hrow. unfold indexed.
  rewrite (take_S_r _ _ _ Hrow), imap_app. simpl.
  rewrite length_take_le, Nat.add_0_r; [done|].
  apply lookup_lt_Some in Hrow. lia.
Qed.

Lemma drawn_from_new (k : nat) (row : Row) :
  drawn_from [(k, row)] (new_rev_segment row).
Proof. split_and!; [done..|]. by apply Forall_singleton. Qed.

Lemma drawn_from_extend (g : list (nat * Row)) (s : RevSegment)
    (k : nat) (row : Row) :
  drawn_from g s →
  vs_gear s = CurrentGear row - 1 →
  drawn_from (g ++ [(k, row)]) (extend_rev_segment row s).
Proof.
  intros (Ht & Hr & Hg) Hkey. split_and!; simpl.
  - by rewrite Ht, fmap_app.
  - by rewrite Hr, fmap_app.
  - rewrite Forall_app, Forall_singleton. done.
Qed.

Lemma rev_groups_inv (df : DataFrame) (k : nat) (st : State) :
  segmenter_upto df k = Ok st →
  ∃ groups : list (list (nat * Row)),
    concat groups = valid_samples (take k df) ∧
    Forall2 drawn_from groups st.2.
Proof.
  revert st. induction k as [|k IH]; intros [rpm rev] Hst.
  { rewrite segmenter_upto_0 in Hst. injection Hst as <- <-.
    exists []. rewrite take_0. split; [done|constructor]. }
  destruct (segmenter_upto_S_Ok df k _ Hst)
    as ([rpm0 rev0] & row & Hst0 & Hrow & _ & Hrev).
  destruct (IH _ Hst0) as (groups & Hcat & Hdrawn). simpl in *.
  unfold valid_samples in *. rewrite (indexed_take_S _ _ _ Hrow), filter_app.
  rewrite filter_singleton; [|exact []]. simpl.
  destruct (valid row) eqn:Hvalid.
  - rewrite decide_True by done.
    assert (∃ groups', concat groups' = concat groups ++ [(k, row)] ∧
                       Forall2 drawn_from groups' rev) as (groups' & Hc & Hd).
    { destruct (revmatch_step_cases df k row rev0) as
        [(_ & _ & Hs)|(_ & l & s & -> & [(Hkey & _ & Hs)|(_ & _ & Hs)])];
        [apply lookup_pred; by eapply lookup_lt_Some|done|..];
        rewrite Hs in Hrev; injection Hrev as <-.
      - exists (groups ++ [[(k, row)]]). rewrite concat_app. split; [done|].
        apply Forall2_app; [done|].
        constructor; [apply drawn_from_new|constructor].
      - apply Forall2_snoc_inv_r in Hdrawn as (gs & g & -> & Hgs & Hg).
        exists (gs ++ [g ++ [(k, row)]]). rewrite !concat_app. simpl.
        rewrite !app_nil_r, app_assoc. split; [done|].
        apply Forall2_app; [done|].
        constructor; [by apply drawn_from_extend|constructor].
      - exists (groups ++ [[(k, row)]]). rewrite concat_app. split; [done|].
        apply Forall2_app; [done|].
        constructor; [apply drawn_from_new|constructor]. }
    exists groups'. by rewrite Hc, Hcat.
  - rewrite decide_False by done. rewrite app_nil_r.
    destruct (revmatch_step_skip df k row rev0 Hvalid) as [_ Hs].
    rewrite Hs in Hrev. injection Hrev as <-. by exists groups.
Qed.

Lemma valid_samples_spec (df : DataFrame) (i : nat) (row : Row) :
  (i, row) ∈ valid_samples df ↔ df !! i = Some row ∧ valid row = true.
Proof.
  unfold valid_samples, indexed. rewrite list_elem_of_filter, elem_of_lookup_imap.
  simpl. naive_solver.
Qed.

Lemma valid_samples_NoDup (df : DataFrame) : NoDup (fst <$> valid_samples df).
Proof.
  unfold valid_samples, indexed.
  eapply sublist_NoDup; [|apply fmap_sublist, sublist_filter].
  rewrite fmap_imap.
  change (imap (λ n, fst ∘ pair n) df) with (imap (λ (j : nat) (_ : Row), j) df).
  rewrite (imap_seq_0 df (λ i, i)), list_fmap_id. apply NoDup_seq.
Qed.

Lemma rpm_upto_fst (df : DataFrame) (k : nat) (st : State) :
  segmenter_upto df k = Ok st → rpm_upto df k = Ok st.1.
Proof.
  revert st. induction k as [|k IH]; intros st Hst.
  { rewrite segmenter_upto_0 in Hst. by injection Hst as <-. }
  destruct (segmenter_upto_S_Ok df k st Hst) as (st0 & row & Hst0 & Hrow & Hrpm & _).
  unfold rpm_upto in *. rewrite seq_S, foldM_app, (IH _ Hst0). simpl.
  rewrite (iloc_Some _ _ _ Hrow). simpl. rewrite Hrpm. done.
Qed.

(** The RPM segments are consecutive runs of the indexed samples. *)
Lemma rpm_groups_inv (df : DataFrame) (k : nat) (st : State) :
  segmenter_upto df k = Ok st →
  ∃ groups : list (list (nat * Row)),
    concat groups = indexed (take k df) ∧
    Forall2 rpm_drawn_from groups st.1.
Proof.
  revert st. induction k as [|k IH]; intros [rpm rev] Hst.
  { rewrite segmenter_upto_0 in Hst. injection Hst as <- <-.
    exists []. rewrite take_0. split; [done|constructor]. }
  destruct (segmenter_upto_S_Ok df k _ Hst)
    as ([rpm0 rev0] & row & Hst0 & Hrow & Hrpm & _).
  destruct (IH _ Hst0) as (groups & Hcat & Hdrawn). simpl in *.
  rewrite (indexed_take_S _ _ _ Hrow).
  destruct (rpm_step_Ok df k row _ _ Hrow Hrpm)
    as [[-> _]|(l & s & Hk & Hsame & -> & ->)].
  - exists (groups ++ [[(k, row)]]). rewrite concat_app, Hcat. split; [done|].
    apply Forall2_app; [done|]. constructor; [|constructor].
    split_and!; [done..|]. by apply Forall_singleton.
  - apply Forall2_snoc_inv_r in Hdrawn as (gs & g & -> & Hgs & Hg).
    destruct Hg as (Hne & Ht & Hp & Hgear).
    exists (gs ++ [g ++ [(k, row)]]). split.
    + rewrite concat_app in Hcat |- *. simpl in *.
      rewrite app_nil_r in Hcat |- *. by rewrite app_assoc, Hcat.
    + apply Forall2_app; [done|]. constructor; [|constructor].
      split_and!; simpl.
      * apply snoc_not_nil.
      * by rewrite Ht, fmap_app.
      * by rewrite Hp, fmap_app.
      * rewrite Forall_app, Forall_singleton. split; [done|]. simpl.
        destruct k as [|k]; [done|]. clear Hk.
        destruct (lookup_lt_is_Some_2 df k) as [prev Hprev].
        { apply lookup_lt_Some in Hrow. lia. }
        unfold gear_at in Hsame. simpl in Hsame.
        rewrite Nat.sub_0_r, Hrow, Hprev in Hsame. injection Hsame as Hsame.
        rewrite (indexed_take_S _ _ _ Hprev) in Hcat.
        destruct (snoc_cases g) as [->|(g' & p & ->)]; [done|].
        rewrite concat_app in Hcat. simpl in Hcat.
        rewrite app_nil_r, app_assoc in Hcat.
        apply app_inj_tail in Hcat as [_ ->].
        rewrite Forall_app, Forall_singleton in Hgear.
        destruct Hgear as [_ Hgear]. simpl in Hgear. congruence.
Qed.

(** ** The segmenter *)

(** C1: the point lists of the RPM segments, concatenated in segment order,
    are the (time, rpm) pairs of the samples in their original order; the two
    columns of every segment have the same length, so no point is lost when
    they are paired.  The segments are drawn one by one from non-empty runs
    of indexed samples whose concatenation is the whole indexed input, each
    run sharing the gear that keys its segment: every sample lies in exactly
    one RPM segment. *)
Theorem rpm_segments_partition (df : DataFrame) :
  ∃ rpm rev (groups : list (list (nat * Row))),
    segmenter df = Ok (rpm, rev) ∧
    concat (rpm_points <$> rpm) = sample_point <$> df ∧
    Forall (λ s, length (rs_time s) = length (rs_rpm s)) rpm ∧
    Forall2 rpm_drawn_from groups rpm ∧
    concat groups = indexed df.
Proof.
  destruct (segmenter_total df) as (rpm & rev & Hseg).
  destruct (rpm_points_inv df (length df) _ Hseg) as [Hcat Hlen].
  destruct (rpm_groups_inv df (length df) _ Hseg) as (groups & Hgroups & Hdrawn).
  rewrite take_ge in Hcat, Hgroups by done.
  by exists rpm, rev, groups.
Qed.

(** C2: the RevMatch segments are drawn, one by one, from groups of indexed
    samples whose concatenation is the list of the valid samples in order:
    every contributing sample satisfies [gear > 1 and revmatch != -1], no
    index occurs in two segments (or twice), and the key of the segment a
    sample joins is that sample's gear minus one. *)
Theorem revmatch_segments_valid (df : DataFrame) :
  ∃ rpm rev (groups : list (list (nat * Row))),
    segmenter df = Ok (rpm, rev) ∧
    Forall2 drawn_from groups rev ∧
    concat groups = valid_samples df ∧
    NoDup (fst <$> concat groups) ∧
    Forall (λ p, df !! p.1 = Some p.2 ∧ valid p.2 = true) (concat groups).
Proof.
  destruct (segmenter_total df) as (rpm & rev & Hseg).
  destruct (rev_groups_inv df (length df) _ Hseg) as (groups & Hcat & Hdrawn).
  rewrite take_ge in Hcat by done.
  exists rpm, rev, groups. split_and!; [done..| |].
  - rewrite Hcat. apply valid_samples_NoDup.
  - rewrite Hcat. apply Forall_forall. intros [i row]. apply valid_samples_spec.
Qed.

(** C3: at a valid sample [i], a new RevMatch segment keyed [gear[i] - 1] is
    appended exactly when no RevMatch segment exists yet, or the previous
    sample has a different gear, or the previous sample's revmatch is [-1];
    otherwise the point is appended to the last segment.  On
    (gear, revmatch) = [(2,5000); (2,5200); (3,-1); (3,6000)] the RevMatch
    segments are key 1 with the first two points and key 2 with the last. *)
Theorem revmatch_boundary :
  (∀ (df : DataFrame) (i : nat) (row : Row),
     df !! i = Some row →
     valid row = true →
     ∃ rpm rev rpm',
       segmenter_upto df i = Ok (rpm, rev) ∧
       (opens df i row rev ∧
        segmenter_upto df (S i) = Ok (rpm', rev ++ [new_rev_segment row])
        ∨ ¬ opens df i row rev ∧
          ∃ l s, rev = l ++ [s] ∧
                 segmenter_upto df (S i)
                 = Ok (rpm', l ++ [extend_rev_segment row s]))) ∧
  (∀ t0 t1 t2 t3 p0 p1 p2 p3 : Q,
     snd <$> segmenter [sample t0 p0 2 (5000 # 1); sample t1 p1 2 (5200 # 1);
                        sample t2 p2 3 sentinel; sample t3 p3 3 (6000 # 1)]
     = Ok [ {| vs_time := [t0; t1];
               vs_revmatch := [(5000 # 1)%Q; (5200 # 1)%Q];
               vs_gear := 1 |};
            {| vs_time := [t3]; vs_revmatch := [(6000 # 1)%Q]; vs_gear := 2 |} ]).
Proof.
  split; [|done].
  intros df i row Hrow Hvalid.
  pose proof (lookup_lt_Some _ _ _ Hrow) as Hlt.
  destruct (segmenter_upto_total df i) as ([rpm rev] & Hst & _); [lia|].
  destruct (segmenter_upto_total df (S i)) as ([rpm' rev'] & Hst' & _); [lia|].
  destruct (segmenter_upto_S_Ok df i _ Hst') as (st0 & row' & Hst0 & Hrow' & _ & Hrev).
  assert (st0 = (rpm, rev)) as -> by congruence.
  assert (row' = row) as -> by congruence. simpl in Hrev.
  exists rpm, rev, rpm'. split; [done|].
  destruct (revmatch_step_cases df i row rev) as
    [(Hopen & _ & Hs)|(Hno & l & s & -> & Hcase)];
    [by apply lookup_pred|done|..].
  - left. split; [done|]. rewrite Hs in Hrev. by injection Hrev as <-.
  - right. split; [done|]. exists l, s. split; [done|].
    destruct Hcase as [(_ & _ & Hs)|(Hne & _ & _)];
      [rewrite Hs in Hrev; by injection Hrev as <-|].
    destruct (no_trigger_same_key df i _ row Hst Hrow Hvalid Hno)
      as (l' & s' & Hl' & Hkey).
    simpl in Hl'. apply app_inj_tail in Hl' as [_ ->]. done.
Qed.

Lemma revmatch_boundary_witness :
  let df := [sample 0 0 2 (5000 # 1); sample 1 0 2 (5200 # 1)] in
  let row := sample 1 0 2 (5200 # 1) in
  df !! 1%nat = Some row ∧ valid row = true ∧
  ∃ rpm rev rpm',
    segmenter_upto df 1 = Ok (rpm, rev) ∧
    (opens df 1 row rev ∧
     segmenter_upto df 2 = Ok (rpm', rev ++ [new_rev_segment row])
     ∨ ¬ opens df 1 row rev ∧
       ∃ l s, rev = l ++ [s] ∧
              segmenter_upto df 2 = Ok (rpm', l ++ [extend_rev_segment row s])).
Proof.
  intros df row. split; [reflexivity|]. split; [reflexivity|].
  apply (proj1 revmatch_boundary df 1%nat row); reflexivity.
Defined.

(** C4: on a non-empty input the number of RPM segments is the number of
    gear-change events plus one; the segments start at index 0 and at the
    gear changes, each keyed by the gear found there.  Gears [1;1;2;2;1]
    give three RPM segments with keys [1;2;1] and lengths [2;2;1]. *)
Theorem rpm_segment_count :
  (∀ df : DataFrame,
     df ≠ [] →
     ∃ rpm rev,
       segmenter df = Ok (rpm, rev) ∧
       length rpm = S (gear_changes df) ∧
       Forall2 (λ i s, gear_at df i = Some (rs_gear s))
               (0%nat :: change_indices df) rpm) ∧
  (∀ t0 t1 t2 t3 t4 p0 p1 p2 p3 p4 m0 m1 m2 m3 m4 : Q,
     fst <$> segmenter [sample t0 p0 1 m0; sample t1 p1 1 m1; sample t2 p2 2 m2;
                        sample t3 p3 2 m3; sample t4 p4 1 m4]
     = Ok [ {| rs_time := [t0; t1]; rs_rpm := [p0; p1]; rs_gear := 1 |};
            {| rs_time := [t2; t3]; rs_rpm := [p2; p3]; rs_gear := 2 |};
            {| rs_time := [t4]; rs_rpm := [p4]; rs_gear := 1 |} ]).
Proof.
  split.
  - intros df Hne. destruct (segmenter_total df) as (rpm & rev & Hseg).
    exists rpm, rev. split; [done|].
    pose proof (rpm_keys_inv df (length df) _ Hseg) as Hkeys.
    rewrite segment_starts_length in Hkeys by done. simpl in Hkeys.
    split; [|done]. apply Forall2_length in Hkeys. by rewrite <- Hkeys.
  - intros. 
    match goal with |- fst <$> segmenter ?df = _ =>
      destruct (segmenter_total df) as (rpm & rev & Hseg);
      rewrite Hseg; apply rpm_upto_fst in Hseg end.
    simpl in *. injection Hseg as <-. done.
Qed.

Lemma rpm_segment_count_witness :
  let df := [sample 0 0 1 0; sample 1 0 2 0]%Q in
  df ≠ [] ∧
  ∃ rpm rev,
    segmenter df = Ok (rpm, rev) ∧
    length rpm = S (gear_changes df) ∧
    Forall2 (λ i s, gear_at df i = Some (rs_gear s))
            (0%nat :: change_indices df) rpm.
Proof.
  intros df. split; [discriminate|].
  apply (proj1 rpm_segment_count df). discriminate.
Defined.

(** C5: the re-split arm (line 97) is never taken.  Before any sample [i]
    the loop state exists, and the arm chosen for sample [i] is one of three:
    skip for an invalid sample, open under the new-segment condition, and
    otherwise extend, the last segment then carrying the key [gear[i] - 1]. *)
Theorem revmatch_resplit_dead (df : DataFrame) (i : nat) (row : Row) :
  df !! i = Some row →
  ∃ rpm rev b,
    segmenter_upto df i = Ok (rpm, rev) ∧
    revmatch_branch df i row rev = Ok b ∧
    b ≠ RevResplit ∧
    (b = RevSkip ∧ valid row = false
     ∨ b = RevOpen ∧ valid row = true ∧ opens df i row rev
     ∨ b = RevExtend ∧ valid row = true ∧ ¬ opens df i row rev ∧
       ∃ l s, rev = l ++ [s] ∧ vs_gear s = CurrentGear row - 1).
Proof.
  intros Hrow. pose proof (lookup_lt_Some _ _ _ Hrow) as Hlt.
  destruct (segmenter_upto_total df i) as ([rpm rev] & Hst & _); [lia|].
  exists rpm, rev. destruct (valid row) eqn:Hvalid.
  - destruct (revmatch_step_cases df i row rev) as
      [(Hopen & Hb & _)|(Hno & l & s & -> & Hcase)];
      [by apply lookup_pred|done|..].
    + exists RevOpen. split_and!; [done..|]. right. by left.
    + destruct (no_trigger_same_key df i _ row Hst Hrow Hvalid Hno)
        as (l' & s' & Hl' & Hkey).
      simpl in Hl'. apply app_inj_tail in Hl' as [_ <-].
      destruct Hcase as [(_ & Hb & _)|(Hne & _ & _)]; [|done].
      exists RevExtend. split_and!; [done..|]. do 2 right.
      split_and!; [done..|]. by exists l, s.
  - destruct (revmatch_step_skip df i row rev Hvalid) as [Hb _].
    exists RevSkip. split_and!; [done..|]. by left.
Qed.

Lemma revmatch_resplit_dead_witness :
  let df := [sample 0 0 2 (5000 # 1); sample 1 0 2 (5200 # 1)] in
  let row := sample 1 0 2 (5200 # 1) in
  df !! 1%nat = Some row ∧
  ∃ rpm rev b,
    segmenter_upto df 1 = Ok (rpm, rev) ∧
    revmatch_branch df 1 row rev = Ok b ∧
    b ≠ RevResplit ∧
    (b = RevSkip ∧ valid row = false
     ∨ b = RevOpen ∧ valid row = true ∧ opens df 1 row rev
     ∨ b = RevExtend ∧ valid row = true ∧ ¬ opens df 1 row rev ∧
       ∃ l s, rev = l ++ [s] ∧ vs_gear s = CurrentGear row - 1).
Proof.
  intros df row. split; [reflexivity|].
  apply (revmatch_resplit_dead df 1%nat row). reflexivity.
Defined.

(** C10: on an empty input the loop body never runs: both segment lists are
    empty. *)
Theorem segmenter_empty : segmenter [] = Ok ([], []).
Proof. reflexivity. Qed.

(** ** The legend *)

Lemma sorted_NoDup_strict (l : list Z) :
  StronglySorted Z.le l → NoDup l → StronglySorted Z.lt l.
Proof.
  induction 1 as [|x l Hl IH Hx]; intros Hnd; [constructor|].
  apply NoDup_cons in Hnd as [Hnotin Hnd].
  constructor; [by apply IH|].
  rewrite Forall_forall in Hx |- *. intros y Hy.
  specialize (Hx y Hy). assert (x ≠ y) by (by intros ->). lia.
Qed.

Lemma all_gears_elem (rpm : list RpmSegment) (rev : list RevSegment) (k : Z) :
  k ∈ Legend.all_gears rpm rev ↔
  k ∈ rs_gear <$> rpm ∨ k ∈ vs_gear <$> rev.
Proof.
  unfold Legend.all_gears. rewrite merge_sort_Permutation.
  by rewrite elem_of_elements, elem_of_list_to_set, elem_of_app.
Qed.

Lemma all_gears_sorted (rpm : list RpmSegment) (rev : list RevSegment) :
  StronglySorted Z.lt (Legend.all_gears rpm rev).
Proof.
  apply sorted_NoDup_strict.
  - apply (StronglySorted_merge_sort Z.le).
  - unfold Legend.all_gears. rewrite merge_sort_Permutation.
    apply NoDup_elements.
Qed.

Lemma color_of_eq_palette (k : Z) : Legend.color_of k = palette k.
Proof.
  unfold palette. repeat case_decide; subst; try reflexivity.
  unfold Legend.color_of, Legend.gear_colors.
  by rewrite !lookup_insert_ne, lookup_singleton_ne by done.
Qed.

Lemma legend_as_fmap (format_key : Z → string)
    (rpm : list RpmSegment) (rev : list RevSegment) :
  Legend.legend format_key rpm rev
  = (λ k, (Legend.legend_element rev k, Legend.gear_label format_key k))
      <$> Legend.all_gears rpm rev.
Proof.
  unfold Legend.legend, Legend.legend_elements, Legend.gear_labels.
  induction (Legend.all_gears rpm rev) as [|k ks IH]; [done|].
  rewrite !fmap_cons. simpl. by rewrite <- IH.
Qed.

Lemma legend_element_eq (rev : list RevSegment) (k : Z) :
  Legend.legend_element rev k
  = ({| Legend.ln_color := palette k; Legend.ln_linestyle := Legend.Solid |},
     if bool_decide (k ∈ vs_gear <$> rev)
     then Some {| Legend.ln_color := palette k;
                  Legend.ln_linestyle := Legend.Dashed |}
     else None).
Proof.
  unfold Legend.legend_element, Legend.rpm_line, Legend.revmatch_line.
  rewrite color_of_eq_palette. by case_bool_decide.
Qed.

(** C9: the legend has one entry per distinct gear key of the two segment
    lists: its keys are strictly ascending (so without duplicates), a key is
    listed exactly when it is the key of some RPM or RevMatch segment, and the
    number of entries is the number of distinct keys.  The entry of key [k]
    is labelled "Gear" followed by the key as Python prints it; it carries a
    solid line in the colour of [k] and, exactly when [k] is a RevMatch
    segment key, a dashed line of the same colour beside it. *)
Theorem legend_one_entry_per_gear (format_key : Z → string)
    (rpm : list RpmSegment) (rev : list RevSegment) :
  ∃ keys : list Z,
    StronglySorted Z.lt keys ∧
    (∀ k, k ∈ keys ↔ k ∈ rs_gear <$> rpm ∨ k ∈ vs_gear <$> rev) ∧
    length (Legend.legend format_key rpm rev)
    = size (list_to_set ((rs_gear <$> rpm) ++ (vs_gear <$> rev)) : gset Z) ∧
    Legend.legend format_key rpm rev
    = (λ k, (({| Legend.ln_color := palette k;
                 Legend.ln_linestyle := Legend.Solid |},
              if bool_decide (k ∈ vs_gear <$> rev)
              then Some {| Legend.ln_color := palette k;
                           Legend.ln_linestyle := Legend.Dashed |}
              else None),
             "Gear " +:+ format_key k)) <$> keys.
Proof.
  exists (Legend.all_gears rpm rev).
  split; [apply all_gears_sorted|]. split; [apply all_gears_elem|].
  rewrite legend_as_fmap. split.
  - rewrite length_fmap. unfold Legend.all_gears.
    by rewrite merge_sort_Permutation.
  - apply list_fmap_ext. intros _ k _. by rewrite legend_element_eq.
Qed.

Lemma py_isspace_spec (c : N) : Config.py_isspace c = true ↔ whitespace c.
Proof.
  unfold Config.py_isspace, whitespace, unicode_whitespace.
  rewrite !orb_true_iff, !andb_true_iff, !N.leb_le, !N.eqb_eq.
  rewrite !elem_of_cons, elem_of_nil. lia.
Qed.

Lemma comma_not_whitespace : ¬ whitespace comma.
Proof.
  unfold whitespace, unicode_whitespace, comma.
  rewrite !elem_of_cons, elem_of_nil. lia.
Qed.

Lemma has_comma_spec (s : list N) : Config.has_comma s = true ↔ comma ∈ s.
Proof.
  induction s as [|c s IH]; simpl.
  - split; [done|by intros ?%elem_of_nil].
  - rewrite elem_of_cons. unfold comma in *.
    destruct (N.eqb_spec c 0x2C) as [->|Hne]; [naive_solver|].
    rewrite IH. naive_solver.
Qed.

Lemma lstrip_spec (l : list N) :
  ∃ pre, l = pre ++ Config.lstrip l ∧ Forall whitespace pre ∧
         ∀ c, head (Config.lstrip l) = Some c → ¬ whitespace c.
Proof.
  induction l as [|c l (pre & Hl & Hpre & Hhead)]; simpl.
  - exists []. split_and!; [done|constructor|done].
  - destruct (Config.py_isspace c) eqn:Hc.
    + exists (c :: pre). split_and!; [by rewrite Hl at 1| |done].
      constructor; [by apply py_isspace_spec|done].
    + exists []. split_and!; [done|constructor|].
      intros c' [= <-]. rewrite <- py_isspace_spec. congruence.
Qed.

(** [strip] removes exactly the leading and trailing whitespace. *)
Lemma strip_spec (l : list N) : is_strip_of l (Config.strip l).
Proof.
  unfold Config.strip.
  destruct (lstrip_spec l) as (pre & Hl & Hpre & Hhead).
  destruct (lstrip_spec (reverse (Config.lstrip l)))
    as (post & Hm & Hpost & Hlast).
  set (t := Config.lstrip (reverse (Config.lstrip l))) in *.
  assert (Config.lstrip l = reverse t ++ reverse post) as Hmid.
  { rewrite <- reverse_app, <- Hm. by rewrite reverse_involutive. }
  exists pre, (reverse post). split_and!.
  - by rewrite <- Hmid.
  - done.
  - by apply Forall_reverse.
  - intros c Hc. apply Hhead. rewrite Hmid.
    destruct (reverse t); [done|]. done.
  - intros c Hc. apply Hlast. by rewrite <- last_reverse.
Qed.

Lemma whitespace_prefix_unique (pre1 pre2 t1 t2 : list N) :
  pre1 ++ t1 = pre2 ++ t2 →
  Forall whitespace pre1 → Forall whitespace pre2 →
  (∃ c, head t1 = Some c ∧ ¬ whitespace c) →
  (∃ c, head t2 = Some c ∧ ¬ whitespace c) →
  pre1 = pre2 ∧ t1 = t2.
Proof.
  revert pre2. induction pre1 as [|a pre1 IH]; intros [|b pre2] Heq H1 H2 Ht1 Ht2.
  - done.
  - simpl in Heq. subst t1. destruct Ht1 as (c & [= <-] & Hc).
    apply Forall_cons in H2 as [Hb _]. done.
  - simpl in Heq. subst t2. destruct Ht2 as (c & [= <-] & Hc).
    apply Forall_cons in H1 as [Ha _]. done.
  - injection Heq as <- Heq.
    apply Forall_cons in H1 as [_ H1]. apply Forall_cons in H2 as [_ H2].
    destruct (IH pre2 Heq H1 H2 Ht1 Ht2) as [-> ->]. done.
Qed.

Lemma is_strip_of_nil (l s : list N) :
  is_strip_of l s → (s = [] ↔ Forall whitespace l).
Proof.
  intros (pre & post & -> & Hpre & Hpost & Hhead & _). split.
  - intros ->. rewrite Forall_app. done.
  - rewrite !Forall_app. intros (_ & Hs & _).
    destruct s as [|c s]; [done|].
    apply Forall_cons in Hs as [Hc _]. by destruct (Hhead c).
Qed.

(** A line has one stripped form only. *)
Lemma is_strip_of_functional (l s1 s2 : list N) :
  is_strip_of l s1 → is_strip_of l s2 → s1 = s2.
Proof.
  intros H1 H2.
  pose proof (is_strip_of_nil _ _ H1) as Hnil1.
  pose proof (is_strip_of_nil _ _ H2) as Hnil2.
  destruct (decide (s1 = [])) as [->|Hne1].
  { symmetry. apply Hnil2, Hnil1. done. }
  destruct (decide (s2 = [])) as [->|Hne2].
  { apply Hnil1, Hnil2. done. }
  destruct H1 as (pre1 & post1 & Hl1 & Hpre1 & Hpost1 & Hhead1 & Hlast1).
  destruct H2 as (pre2 & post2 & Hl2 & Hpre2 & Hpost2 & Hhead2 & Hlast2).
  destruct (whitespace_prefix_unique pre1 pre2 (s1 ++ post1) (s2 ++ post2))
    as [_ Heq]; [congruence|done..| | |].
  { destruct s1 as [|c s1]; [done|]. exists c. split; [done|]. by apply Hhead1. }
  { destruct s2 as [|c s2]; [done|]. exists c. split; [done|]. by apply Hhead2. }
  apply (f_equal reverse) in Heq. rewrite !reverse_app in Heq.
  destruct (whitespace_prefix_unique (reverse post1) (reverse post2)
              (reverse s1) (reverse s2)) as [_ Hrev];
    [done|by apply Forall_reverse..| | |].
  { rewrite head_reverse. destruct (last s1) as [c|] eqn:Hc.
    - exists c. split; [done|]. by apply Hlast1.
    - by apply last_None in Hc. }
  { rewrite head_reverse. destruct (last s2) as [c|] eqn:Hc.
    - exists c. split; [done|]. by apply Hlast2.
    - by apply last_None in Hc. }
  by apply (inj reverse).
Qed.

Lemma config_lines_cons (l : list N) (ls : list (list N)) :
  Config.config_lines (l :: ls)
  = (if negb (Config.has_comma (Config.strip l)) && Config.truthy (Config.strip l)
     then [Config.strip l] else [])
    ++ Config.config_lines ls.
Proof.
  unfold Config.config_lines. rewrite filter_cons.
  destruct (negb _ && _); by case_decide.
Qed.

Lemma config_lines_app (l1 l2 : list (list N)) :
  Config.config_lines (l1 ++ l2)
  = Config.config_lines l1 ++ Config.config_lines l2.
Proof. unfold Config.config_lines. by rewrite filter_app, fmap_app. Qed.

(** The code's config lines are the stripped, non-blank, comma-free lines. *)
Lemma config_lines_of_spec (lines : list (list N)) :
  config_lines_of lines (Config.config_lines lines).
Proof.
  induction lines as [|l ls IH]; [constructor|].
  rewrite config_lines_cons.
  pose proof (strip_spec l) as Hstrip.
  destruct (Config.has_comma (Config.strip l)) eqn:Hcomma; simpl.
  - eapply config_lines_of_drop; [exact Hstrip| |done].
    right. by apply has_comma_spec.
  - destruct (Config.strip l) as [|c s] eqn:Hs; simpl.
    + eapply config_lines_of_drop; [exact Hstrip|by left|done].
    + apply config_lines_of_keep; [done..| |done].
      rewrite <- has_comma_spec. congruence.
Qed.

(** A file has one list of config lines only. *)
Lemma config_lines_of_functional (lines cl1 cl2 : list (list N)) :
  config_lines_of lines cl1 → config_lines_of lines cl2 → cl1 = cl2.
Proof.
  intros H1. revert cl2.
  induction H1 as [|l s ls cl Hs Hne Hc _ IH|l s ls cl Hs Hdrop _ IH];
    intros cl2 H2; inv H2; try done.
  - assert (s0 = s) as -> by by eapply is_strip_of_functional.
    f_equal. by apply IH.
  - assert (s0 = s) as -> by by eapply is_strip_of_functional. naive_solver.
  - assert (s0 = s) as -> by by eapply is_strip_of_functional. naive_solver.
  - by apply IH.
Qed.

Lemma readlines_Some (lines : list (list N)) :
  Config.readlines (Some <$> lines) = Ok lines.
Proof.
  induction lines as [|l ls IH]; [done|].
  rewrite fmap_cons. cbn [Config.readlines]. by rewrite IH.
Qed.

Lemma readlines_None (raw : list (option (list N))) :
  None ∈ raw → Config.readlines raw = Raise UnicodeDecodeError.
Proof.
  induction raw as [|[l|] raw IH]; [by intros ?%elem_of_nil| |done].
  intros [?|Hin]%elem_of_cons; [done|]. simpl. by rewrite IH.
Qed.

Lemma raw_cases (raw : list (option (list N))) :
  None ∈ raw ∨ ∃ lines, raw = Some <$> lines.
Proof.
  induction raw as [|[l|] raw [IH|[lines ->]]].
  - right. by exists [].
  - left. by right.
  - right. by exists (l :: lines).
  - left. by left.
  - left. by left.
Qed.

Lemma load_config_undecodable (py_int : list N → option Z)
    (raw : list (option (list N))) :
  None ∈ raw →
  Config.load_config py_int (Config.Content raw)
  = ({| Config.min_rpm := Some Config.PyNone;
        Config.max_rpm := Some Config.PyNone;
        Config.stdout := [Config.msg_invalid] |}, None).
Proof.
  intros Hraw. unfold Config.load_config, Config.try_body. simpl.
  by rewrite readlines_None.
Qed.

Lemma load_config_decoded (py_int : list N → option Z)
    (lines : list (list N)) :
  Config.load_config py_int (Config.Content (Some <$> lines))
  = match Config.config_lines lines with
    | l0 :: l1 :: _ =>
        match py_int l0, py_int l1 with
        | Some lo, Some hi =>
            ({| Config.min_rpm := Some (Config.PyInt lo);
                Config.max_rpm := Some (Config.PyInt hi);
                Config.stdout := [Config.msg_using lo hi] |}, None)
        | _, _ =>
            ({| Config.min_rpm := Some Config.PyNone;
                Config.max_rpm := Some Config.PyNone;
                Config.stdout := [Config.msg_invalid] |}, None)
        end
    | _ =>
        ({| Config.min_rpm := Some Config.PyNone;
            Config.max_rpm := Some Config.PyNone;
            Config.stdout := [Config.msg_not_enough] |}, None)
    end.
Proof.
  unfold Config.load_config, Config.try_body. simpl.
  rewrite readlines_Some.
  destruct (Config.config_lines lines) as [|l0 [|l1 cl]]; [done..|].
  simpl. destruct (py_int l0); [|done]. by destruct (py_int l1).
Qed.

(** C8, as stated, fails: the file exists and its first two lines, [1000]
    and [7000], parse as integers, but a later line cannot be decoded;
    [readlines()] raises [UnicodeDecodeError], the [except ValueError] clause
    catches it, and both bounds are [None]. *)
Lemma config_undecodable_line_falls_back :
  ¬ claimed_success Config.decimal_int
      (Config.Content [Some (line "1000"); Some (line "7000"); None]).
Proof.
  intros Hclaim.
  destruct (Hclaim _ (text "1000") (text "7000") 1000 7000 eq_refl)
    as [Hmin _]; [|reflexivity..|by vm_compute in Hmin].
  exists [line "1000"; line "7000"], [None], []. split; [done|].
  apply (config_lines_of_spec [line "1000"; line "7000"]).
Qed.

(** C8, amended.  The loader ends in one of these ways, for any behaviour
    of [int()].  With the file opened, all of it decoded, and at least two
    lines left after stripping whitespace and dropping the blank lines and the
    lines with a comma: the first two, if both parse as integers, become
    ([min_rpm], [max_rpm]).  A missing file, fewer than two such lines, and a
    first or second such line that is not an integer each leave both bounds
    [None] and print their own warning; a file that cannot be decoded does the
    same with the warning of the non-integer case.  Any other error of opening
    or reading escapes with nothing printed and neither variable set.  The
    three warnings differ from each other and from the success message, and in
    no outcome is exactly one bound an integer. *)
Theorem config_loader_outcomes (py_int : list N → option Z)
    (file : Config.FileRead) :
  let r := Config.load_config py_int file in
  let fallback msg :=
    ({| Config.min_rpm := Some Config.PyNone;
        Config.max_rpm := Some Config.PyNone;
        Config.stdout := [msg] |}, @None exn) in
  match file with
  | Config.Missing => r = fallback Config.msg_not_found
  | Config.Unreadable => r = (Config.initial, Some OSError)
  | Config.Content raw =>
      None ∈ raw ∧ r = fallback Config.msg_invalid
      ∨ ∃ lines cl,
          raw = Some <$> lines ∧ config_lines_of lines cl ∧
          r = match cl with
              | l0 :: l1 :: _ =>
                  match py_int l0, py_int l1 with
                  | Some lo, Some hi =>
                      ({| Config.min_rpm := Some (Config.PyInt lo);
                          Config.max_rpm := Some (Config.PyInt hi);
                          Config.stdout := [Config.msg_using lo hi] |}, None)
                  | _, _ => fallback Config.msg_invalid
                  end
              | _ => fallback Config.msg_not_enough
              end
  end ∧
  (is_bound (Config.min_rpm r.1) ↔ is_bound (Config.max_rpm r.1)) ∧
  Config.msg_not_found ≠ Config.msg_not_enough ∧
  Config.msg_not_found ≠ Config.msg_invalid ∧
  Config.msg_not_enough ≠ Config.msg_invalid ∧
  (∀ lo hi, Config.msg_using lo hi ∉
            [Config.msg_not_found; Config.msg_not_enough; Config.msg_invalid]).
Proof.
  assert (∀ v, ¬ is_bound (Some v) ∨ ∃ z, v = Config.PyInt z) as Hb.
  { intros [|z]; [left; by intros [? [=]]|right; by exists z]. }
  split_and!; try discriminate.
  - destruct file as [| |raw]; [done..|].
    destruct (raw_cases raw) as [Hnone|[lines ->]].
    + left. split; [done|]. by apply load_config_undecodable.
    + right. exists lines, (Config.config_lines lines).
      split; [done|]. split; [apply config_lines_of_spec|].
      apply load_config_decoded.
  - destruct file as [| |raw]; [split; by intros [? [=]]..|].
    destruct (raw_cases raw) as [Hnone|[lines ->]].
    + rewrite load_config_undecodable by done. split; by intros [? [=]].
    + rewrite load_config_decoded.
      destruct (Config.config_lines lines) as [|l0 [|l1 cl]];
        [split; by intros [? [=]]..|].
      destruct (py_int l0) as [lo|]; [|split; by intros [? [=]]].
      destruct (py_int l1) as [hi|]; [|split; by intros [? [=]]].
      split; intros _; by eexists.
  - intros lo hi. unfold Config.msg_using.
    rewrite !elem_of_cons, elem_of_nil. unfold String.app. simpl.
    intros [?|[?|[?|[]]]]; discriminate.
Qed.

(** ** The ratio analysis *)

Lemma apply_rows_Ok (df : DataFrame) :
  in_table df →
  ∃ actual, Ratio.apply_rows df = Ok actual ∧
            CurrentGear <$> actual = CurrentGear <$> df ∧
            RPM <$> actual = RPM <$> df ∧
            MPH <$> actual = MPH <$> df.
Proof.
  induction 1 as [|row df [r Hr] _ (actual & Hok & Hg & Hrpm & Hmph)].
  { by exists []. }
  simpl. unfold Ratio.with_theoretical, Ratio.theoretical, Ratio.gears_lookup.
  rewrite Hr. simpl. rewrite Hok. simpl. eexists. split; [done|].
  rewrite !fmap_cons, Hg, Hrpm, Hmph. done.
Qed.

Lemma apply_rows_Raise (df : DataFrame) :
  ¬ in_table df →
  ∃ k, Ratio.gears !! k = None ∧ k ∈ CurrentGear <$> df ∧
       Ratio.apply_rows df = Raise (KeyError k).
Proof.
  induction df as [|row df IH]; intros Hnot.
  { exfalso. apply Hnot. constructor. }
  rewrite fmap_cons.
  simpl. unfold Ratio.with_theoretical, Ratio.theoretical, Ratio.gears_lookup.
  destruct (Ratio.gears !! CurrentGear row) as [r|] eqn:Hr; simpl.
  - destruct IH as (k & Hk & Hin & Hraise).
    { intros Hdf. apply Hnot. constructor; [by rewrite Hr|done]. }
    exists k. rewrite Hraise. split_and!; [done|by right|done].
  - exists (CurrentGear row). split_and!; [done|by left|done].
Qed.

Lemma groupby_lookup (df : DataFrame) (k : Z) :
  Ratio.groupby df !! k =
  match rows_of_gear df k with
  | [] => None
  | g => Some g
  end.
Proof.
  unfold Ratio.groupby, rows_of_gear.
  induction df as [|row df IH] using rev_ind; [done|].
  rewrite foldl_app, filter_app, filter_singleton; [|exact []]. simpl.
  destruct (decide (CurrentGear row = k)) as [->|Hne].
  - rewrite lookup_insert_eq, IH.
    destruct (filter _ df) as [|r g]; [done|]. simpl. done.
  - rewrite lookup_insert_ne, IH, app_nil_r by done. done.
Qed.

Lemma groupby_Some (df : DataFrame) (k : Z) (g : list Row) :
  Ratio.groupby df !! k = Some g → g = rows_of_gear df k.
Proof. rewrite groupby_lookup. destruct (rows_of_gear df k); naive_solver. Qed.

Lemma groupby_dom (df : DataFrame) :
  dom (Ratio.groupby df) = gears_present df.
Proof.
  apply set_eq. intros k. unfold gears_present.
  rewrite elem_of_dom, groupby_lookup, elem_of_list_to_set, list_elem_of_fmap.
  unfold rows_of_gear. split.
  - destruct (filter _ df) as [|r g] eqn:Hf; [by intros [? ?]|]. intros _.
    assert (r ∈ filter (λ row, CurrentGear row = k) df) as Hin
      by (rewrite Hf; by left).
    apply list_elem_of_filter in Hin as [<- Hin]. by exists r.
  - intros (r & -> & Hin).
    assert (r ∈ filter (λ row, CurrentGear row = CurrentGear r) df) as Hin'
      by by apply list_elem_of_filter.
    destruct (filter _ df); [by apply elem_of_nil in Hin'|done].
Qed.

Lemma group_loop_all (actual : DataFrame) (idxs : list nat) :
  Forall (λ i, is_Some (Ratio.groupby actual !! (Z.of_nat i + 1))) idxs →
  Ratio.group_loop (Ratio.groupby actual) idxs
  = (idxs ≫= λ i, Ratio.group_events (rows_of_gear actual (Z.of_nat i + 1)),
     Ok ()).
Proof.
  induction 1 as [|i idxs [g Hg] _ IH]; [done|].
  rewrite bind_cons. simpl. unfold Ratio.get_group. rewrite Hg, IH. simpl.
  by rewrite (groupby_Some _ _ _ Hg).
Qed.

Lemma group_loop_gap (actual : DataFrame) (pre post : list nat) (j : nat) :
  Forall (λ i, is_Some (Ratio.groupby actual !! (Z.of_nat i + 1))) pre →
  Ratio.groupby actual !! (Z.of_nat j + 1) = None →
  Ratio.group_loop (Ratio.groupby actual) (pre ++ j :: post)
  = (pre ≫= λ i, Ratio.group_events (rows_of_gear actual (Z.of_nat i + 1)),
     Raise (KeyError (Z.of_nat j + 1))).
Proof.
  intros Hpre Hj. induction Hpre as [|i pre [g Hg] _ IH].
  { simpl. unfold Ratio.get_group. by rewrite Hj. }
  rewrite bind_cons. simpl. unfold Ratio.get_group. rewrite Hg, IH. simpl.
  by rewrite (groupby_Some _ _ _ Hg).
Qed.

Lemma size_dense (n : nat) : size (dense n) = n.
Proof.
  unfold dense. rewrite size_list_to_set, length_fmap, length_seq; [done|].
  apply NoDup_fmap_2; [apply Nat2Z.inj'|apply NoDup_seq].
Qed.

Lemma elem_of_dense (n : nat) (k : Z) :
  k ∈ dense n ↔ ∃ i, (i < n)%nat ∧ k = Z.of_nat i + 1.
Proof.
  unfold dense. rewrite elem_of_list_to_set, list_elem_of_fmap. split.
  - intros (i & -> & Hi%elem_of_seq). exists (i - 1)%nat. lia.
  - intros (i & Hi & ->). exists (S i). rewrite elem_of_seq. lia.
Qed.

(** A set of [n] integers other than [{1..n}] misses some index of [1..n];
    take the least. *)
Lemma first_gap (X : gset Z) (n : nat) :
  size X = n → X ≠ dense n →
  ∃ j, (j < n)%nat ∧ (Z.of_nat j + 1 ∉ X) ∧
       ∀ i, (i < j)%nat → Z.of_nat i + 1 ∈ X.
Proof.
  intros Hsize Hne.
  destruct (list_find (λ i, Z.of_nat i + 1 ∉ X) (seq 0 n)) as [[idx j]|] eqn:Hfind.
  - apply list_find_Some in Hfind as (Hidx & Hj & Hbefore).
    apply lookup_seq in Hidx as [-> Hlt]. simpl in *.
    exists idx. split_and!; [done..|]. intros i Hi.
    destruct (decide (Z.of_nat i + 1 ∈ X)) as [|Hnotin]; [done|].
    exfalso. apply (Hbefore i i); [|done..].
    apply lookup_seq. split; [done|lia].
  - exfalso. apply Hne. apply list_find_None in Hfind.
    rewrite Forall_forall in Hfind.
    symmetry. apply set_subseteq_size_eq.
    + intros k (i & Hi & ->)%elem_of_dense.
      destruct (decide (Z.of_nat i + 1 ∈ X)) as [|Hnotin]; [done|].
      exfalso. apply (Hfind i); [|done]. apply elem_of_seq. lia.
    + rewrite size_dense. lia.
Qed.

Lemma seq_split (n j : nat) :
  (j < n)%nat → seq 0 n = seq 0 j ++ j :: seq (S j) (n - S j).
Proof.
  intros Hj. replace n with (j + S (n - S j))%nat at 1 by lia.
  by rewrite seq_app.
Qed.

Lemma gears_present_fmap (df actual : DataFrame) :
  CurrentGear <$> actual = CurrentGear <$> df →
  gears_present actual = gears_present df.
Proof. unfold gears_present. by intros ->. Qed.

Lemma ratio_analysis_Ok (df actual : DataFrame) :
  Ratio.apply_rows df = Ok actual →
  Ratio.ratio_analysis df
  = (Ratio.EvPrintDtypes
       :: (Ratio.group_loop (Ratio.groupby actual)
             (seq 0 (size (Ratio.groupby actual)))).1,
     (Ratio.group_loop (Ratio.groupby actual)
        (seq 0 (size (Ratio.groupby actual)))).2).
Proof. unfold Ratio.ratio_analysis. by intros ->. Qed.

Lemma groupby_size (df : DataFrame) :
  size (Ratio.groupby df) = size (gears_present df).
Proof. by rewrite <- groupby_dom, size_dom. Qed.

Lemma groupby_present (df : DataFrame) (k : Z) :
  k ∈ gears_present df → is_Some (Ratio.groupby df !! k).
Proof. rewrite <- groupby_dom. apply elem_of_dom. Qed.

Lemma groupby_absent (df : DataFrame) (k : Z) :
  k ∉ gears_present df → Ratio.groupby df !! k = None.
Proof. rewrite <- groupby_dom. apply not_elem_of_dom. Qed.

(** C7: a gear that is not a key of the ratio table makes the lookup of
    line 42 raise [KeyError] before anything is drawn, and no default ratio
    is used; and when every gear is in the table but the gears present are
    not exactly [1..n] ([n] the number of groups), [get_group] raises
    [KeyError] at the least missing index, after the groups before it were
    drawn: the gap is not skipped. *)
Theorem ratio_lookup_failures :
  (∀ df : DataFrame,
     ¬ in_table df →
     ∃ k, Ratio.gears !! k = None ∧ k ∈ CurrentGear <$> df ∧
          Ratio.ratio_analysis df
          = ([Ratio.EvPrintDtypes], Raise (KeyError k))) ∧
  (∀ df : DataFrame,
     in_table df →
     gears_present df ≠ dense (size (gears_present df)) →
     ∃ actual j,
       Ratio.apply_rows df = Ok actual ∧
       (j < size (gears_present df))%nat ∧
       (Z.of_nat j + 1 ∉ gears_present df) ∧
       (∀ i, (i < j)%nat → Z.of_nat i + 1 ∈ gears_present df) ∧
       Ratio.ratio_analysis df
       = (Ratio.EvPrintDtypes :: events_upto actual j,
          Raise (KeyError (Z.of_nat j + 1)))).
Proof.
  split.
  - intros df Hnot. destruct (apply_rows_Raise df Hnot) as (k & Hk & Hin & Hraise).
    exists k. unfold Ratio.ratio_analysis. by rewrite Hraise.
  - intros df Htable Hgap.
    destruct (apply_rows_Ok df Htable) as (actual & Hok & Hgears & _).
    apply gears_present_fmap in Hgears.
    destruct (first_gap (gears_present df) _ eq_refl Hgap) as (j & Hj & Hmiss & Hbefore).
    exists actual, j. split_and!; [done..|].
    rewrite (ratio_analysis_Ok _ _ Hok), groupby_size, Hgears.
    rewrite (seq_split _ _ Hj), group_loop_gap; [done| |].
    + apply Forall_forall. intros i Hi%elem_of_seq.
      apply groupby_present. rewrite Hgears. apply Hbefore. lia.
    + apply groupby_absent. by rewrite Hgears.
Qed.

Lemma ratio_lookup_failures_witness :
  let df1 := [mkRow 0 3000 1 0 10; mkRow 0 3000 6 0 5]%Q in
  let df2 := [mkRow 0 3000 1 0 10; mkRow 0 3000 3 0 5]%Q in
  (¬ in_table df1 ∧
   ∃ k, Ratio.gears !! k = None ∧ k ∈ CurrentGear <$> df1 ∧
        Ratio.ratio_analysis df1
        = ([Ratio.EvPrintDtypes], Raise (KeyError k))) ∧
  (in_table df2 ∧
   gears_present df2 ≠ dense (size (gears_present df2)) ∧
   ∃ actual j,
     Ratio.apply_rows df2 = Ok actual ∧
     (j < size (gears_present df2))%nat ∧
     (Z.of_nat j + 1 ∉ gears_present df2) ∧
     (∀ i, (i < j)%nat → Z.of_nat i + 1 ∈ gears_present df2) ∧
     Ratio.ratio_analysis df2
     = (Ratio.EvPrintDtypes :: events_upto actual j,
        Raise (KeyError (Z.of_nat j + 1)))).
Proof.
  intros df1 df2.
  assert (¬ in_table df1) as H1.
  { apply (bool_decide_eq_false_1 (in_table df1)). vm_compute. reflexivity. }
  assert (in_table df2) as H2.
  { apply (bool_decide_eq_true_1 (in_table df2)). vm_compute. reflexivity. }
  assert (gears_present df2 ≠ dense (size (gears_present df2))) as H3.
  { apply (bool_decide_eq_false_1 (gears_present df2 = _)). vm_compute. reflexivity. }
  split.
  - split; [exact H1|]. exact (proj1 ratio_lookup_failures df1 H1).
  - split; [exact H2|]. split; [exact H3|].
    exact (proj2 ratio_lookup_failures df2 H2 H3).
Defined.





(** * Further properties of the code *)

(** ** The loop only looks back *)

Lemma foldM_ext {S A : Type} (f g : S → A → result S) (l : list A) (s : S) :
  (∀ s' x, x ∈ l → f s' x = g s' x) → foldM f l s = foldM g l s.
Proof.
  revert s. induction l as [|x l IH]; intros s Hfg; [done|].
  simpl. rewrite (Hfg s x) by (by left).
  destruct (g s x) as [s'|e]; simpl; [|done].
  apply IH. intros s'' y Hy. apply Hfg. by right.
Qed.

Lemma iloc_app_l (df df' : DataFrame) (i : nat) :
  (i < length df)%nat → iloc (df ++ df') i = iloc df i.
Proof. intros Hi. unfold iloc. by rewrite lookup_app_l. Qed.

Lemma body_app_l (df df' : DataFrame) (st : State) (i : nat) :
  (i < length df)%nat → body (df ++ df') st i = body df st i.
Proof.
  intros Hi. unfold body. rewrite iloc_app_l by done.
  destruct (iloc df i) as [row|e]; simpl; [|done].
  assert (rpm_step (df ++ df') i row st.1 = rpm_step df i row st.1) as ->.
  { unfold rpm_step. destruct (i =? 0)%nat; [done|].
    by rewrite iloc_app_l by lia. }
  destruct (rpm_step df i row st.1) as [rpm'|e]; simpl; [|done].
  assert (revmatch_step (df ++ df') i row st.2 = revmatch_step df i row st.2)
    as ->; [|done].
  unfold revmatch_step, revmatch_branch, trigger.
  destruct (valid row); [|done]. destruct st.2; [done|].
  destruct (0 <? i)%nat; [|done]. by rewrite iloc_app_l by lia.
Qed.

Lemma segmenter_upto_app_l (df df' : DataFrame) (k : nat) :
  (k ≤ length df)%nat → segmenter_upto (df ++ df') k = segmenter_upto df k.
Proof.
  intros Hk. unfold segmenter_upto. apply foldM_ext.
  intros st i Hi%elem_of_seq. apply body_app_l. lia.
Qed.

(** X1: the loop never looks ahead: with more samples appended to the
    input, the state reached after the original samples is the result for the
    original input. *)
Theorem segmenter_prefix (df df' : DataFrame) :
  segmenter_upto (df ++ df') (length df) = segmenter df.
Proof. by apply segmenter_upto_app_l. Qed.

(** ** Segments only grow at the end *)

Lemma grows_refl {A : Type} (R : A → A → Prop) (a : list A) :
  (∀ s, R s s) → grows R a a.
Proof.
  intros HR. destruct (snoc_cases a) as [->|(l & s & ->)]; [by left|].
  right. by exists l, s, s, [].
Qed.

Lemma grows_snoc {A : Type} (R : A → A → Prop) (a b : list A) (x : A) :
  grows R a b → grows R a (b ++ [x]).
Proof.
  intros [->|(l & s & s' & ext & -> & -> & HR)]; [by left|].
  right. exists l, s, s', (ext ++ [x]). by rewrite <- app_assoc.
Qed.

Lemma grows_modify_last {A : Type} (R : A → A → Prop) (f : A → A)
    (a l : list A) (s : A) :
  (∀ x y, R x y → R x (f y)) →
  grows R a (l ++ [s]) → grows R a (l ++ [f s]).
Proof.
  intros Hf [->|(l0 & s0 & s' & ext & -> & Hb & HR)]; [by left|].
  right. destruct (snoc_cases ext) as [->|(ext' & y & ->)].
  - apply app_inj_tail in Hb as [-> ->]. exists l0, s0, (f s'), []. eauto.
  - change (l0 ++ s' :: ext' ++ [y]) with (l0 ++ (s' :: ext') ++ [y]) in Hb.
    rewrite app_assoc in Hb. apply app_inj_tail in Hb as [-> ->].
    exists l0, s0, s', (ext' ++ [f y]). by rewrite <- app_assoc.
Qed.

Lemma rpm_segment_grows_extend (row : Row) (s s' : RpmSegment) :
  rpm_segment_grows s s' → rpm_segment_grows s (extend_rpm_segment row s').
Proof.
  intros (Hg & Ht & Hp). split_and!; simpl; [done|..];
    by apply prefix_app_r.
Qed.

Lemma rev_segment_grows_extend (row : Row) (s s' : RevSegment) :
  rev_segment_grows s s' → rev_segment_grows s (extend_rev_segment row s').
Proof.
  intros (Hg & Ht & Hp). split_and!; simpl; [done|..];
    by apply prefix_app_r.
Qed.

Lemma revmatch_step_Ok (df : DataFrame) (k : nat) (row : Row)
    (segs segs' : list RevSegment) :
  df !! k = Some row →
  revmatch_step df k row segs = Ok segs' →
  valid row = false ∧ segs' = segs
  ∨ valid row = true ∧ segs' = segs ++ [new_rev_segment row]
  ∨ valid row = true ∧ ∃ l s, segs = l ++ [s] ∧
                             vs_gear s = CurrentGear row - 1 ∧
                             segs' = l ++ [extend_rev_segment row s].
Proof.
  intros Hrow Hstep. destruct (valid row) eqn:Hvalid.
  - destruct (revmatch_step_cases df k row segs) as
      [(_ & _ & Hs)|(_ & l & s & -> & [(Hkey & _ & Hs)|(_ & _ & Hs)])];
      [apply lookup_pred; by eapply lookup_lt_Some|done|..];
      rewrite Hs in Hstep; injection Hstep as <-.
    + right. by left.
    + do 2 right. split; [done|]. by exists l, s.
    + right. by left.
  - destruct (revmatch_step_skip df k row segs Hvalid) as [_ Hs].
    rewrite Hs in Hstep. injection Hstep as <-. by left.
Qed.

Lemma segmenter_upto_grows (df : DataFrame) (n d : nat) (st0 st : State) :
  segmenter_upto df n = Ok st0 →
  segmenter_upto df (n + d) = Ok st →
  grows rpm_segment_grows st0.1 st.1 ∧ grows rev_segment_grows st0.2 st.2.
Proof.
  intros Hst0. revert st. induction d as [|d IH]; intros st Hst.
  { rewrite Nat.add_0_r in Hst. assert (st = st0) as -> by congruence.
    split; apply grows_refl; intros s; split_and!; done. }
  rewrite Nat.add_succ_r in Hst.
  destruct (segmenter_upto_S_Ok df _ st Hst) as (st1 & row & Hst1 & Hrow & Hrpm & Hrev).
  destruct (IH _ Hst1) as [Hg1 Hg2]. split.
  - destruct (rpm_step_Ok df _ row _ _ Hrow Hrpm)
      as [[-> _]|(l & s & _ & _ & Hl & ->)].
    + by apply grows_snoc.
    + rewrite Hl in Hg1. apply grows_modify_last; [|done].
      apply rpm_segment_grows_extend.
  - destruct (revmatch_step_Ok df _ row _ _ Hrow Hrev)
      as [[_ ->]|[[_ ->]|(_ & l & s & Hl & _ & ->)]].
    + done.
    + by apply grows_snoc.
    + rewrite Hl in Hg2. apply grows_modify_last; [|done].
      apply rev_segment_grows_extend.
Qed.

(** X2: appending samples to the input never rewrites what was segmented:
    every segment of the original result but the last is kept as it is, the
    last one keeps its key and its points as a prefix, and new segments come
    behind it.  This holds for both segment lists. *)
Theorem segments_grow_at_end (df df' : DataFrame) :
  ∃ rpm rev rpm' rev',
    segmenter df = Ok (rpm, rev) ∧
    segmenter (df ++ df') = Ok (rpm', rev') ∧
    grows rpm_segment_grows rpm rpm' ∧
    grows rev_segment_grows rev rev'.
Proof.
  destruct (segmenter_total df) as (rpm & rev & Hseg).
  destruct (segmenter_total (df ++ df')) as (rpm' & rev' & Hseg').
  exists rpm, rev, rpm', rev'. split; [done|]. split; [done|].
  apply (segmenter_upto_grows (df ++ df') (length df) (length df')
           (rpm, rev) (rpm', rev')).
  - by rewrite segmenter_upto_app_l.
  - unfold segmenter in Hseg'. by rewrite length_app in Hseg'.
Qed.

(** ** RPM segments are maximal runs *)

Lemma rpm_last_key (df : DataFrame) (k : nat) (st : State) (row : Row) :
  segmenter_upto df (S k) = Ok st →
  df !! k = Some row →
  ∃ l s, st.1 = l ++ [s] ∧ rs_gear s = CurrentGear row.
Proof.
  revert st row. induction k as [|k IH]; intros st row Hst Hrow.
  - destruct (segmenter_upto_S_Ok df _ st Hst)
      as (st0 & row' & Hst0 & Hrow' & Hrpm & _).
    assert (row' = row) as -> by congruence.
    destruct (rpm_step_Ok df _ row _ _ Hrow Hrpm)
      as [[-> _]|(l & s & Hk & _)]; [|done].
    by exists st0.1, (new_rpm_segment row).
  - destruct (segmenter_upto_S_Ok df _ st Hst)
      as (st0 & row' & Hst0 & Hrow' & Hrpm & _).
    assert (row' = row) as -> by congruence.
    destruct (rpm_step_Ok df _ row _ _ Hrow Hrpm)
      as [[-> _]|(l & s & Hk & Hsame & Hl & ->)].
    { by exists st0.1, (new_rpm_segment row). }
    destruct (lookup_lt_is_Some_2 df k) as [prev Hprev].
    { apply lookup_lt_Some in Hrow. lia. }
    destruct (IH _ _ Hst0 Hprev) as (l' & s' & Hl' & Hkey).
    rewrite Hl in Hl'. apply app_inj_tail in Hl' as [_ <-].
    exists l, (extend_rpm_segment row s). split; [done|]. simpl.
    unfold gear_at in Hsame. simpl in Hsame.
    rewrite Nat.sub_0_r, Hrow, Hprev in Hsame. injection Hsame as Hsame.
    congruence.
Qed.

Lemma neighbours_differ_snoc (keys : list Z) (b : Z) :
  neighbours_differ keys →
  (∀ l a, keys = l ++ [a] → a ≠ b) →
  neighbours_differ (keys ++ [b]).
Proof.
  intros Hkeys Hlast l1 a c l2 Heq.
  destruct (snoc_cases l2) as [->|(l2' & y & ->)].
  - change (l1 ++ [a; c]) with (l1 ++ [a] ++ [c]) in Heq.
    rewrite app_assoc in Heq. apply app_inj_tail in Heq as [-> ->].
    by eapply Hlast.
  - change (l1 ++ a :: c :: l2' ++ [y]) with (l1 ++ (a :: c :: l2') ++ [y]) in Heq.
    rewrite app_assoc in Heq. apply app_inj_tail in Heq as [-> _].
    by eapply Hkeys.
Qed.

Lemma rpm_neighbours_inv (df : DataFrame) (k : nat) (st : State) :
  segmenter_upto df k = Ok st → neighbours_differ (rs_gear <$> st.1).
Proof.
  revert st. induction k as [|k IH]; intros st Hst.
  { rewrite segmenter_upto_0 in Hst. injection Hst as <-.
    intros [|? ?] ? ? ? ?; discriminate. }
  destruct (segmenter_upto_S_Ok df k st Hst) as (st0 & row & Hst0 & Hrow & Hrpm & _).
  specialize (IH _ Hst0).
  destruct (rpm_step_Ok df k row _ _ Hrow Hrpm)
    as [[-> Hk]|(l & s & _ & _ & Hl & ->)].
  - rewrite fmap_app. apply neighbours_differ_snoc; [done|].
    intros l a Hkeys. simpl.
    destruct Hk as [->|[Hk Hne]].
    { rewrite segmenter_upto_0 in Hst0. injection Hst0 as <-.
      by destruct l. }
    destruct k as [|k]; [done|].
    destruct (lookup_lt_is_Some_2 df k) as [prev Hprev].
    { apply lookup_lt_Some in Hrow. lia. }
    destruct (rpm_last_key df k _ prev Hst0 Hprev) as (l' & s' & Hl' & Hkey).
    rewrite Hl', fmap_app in Hkeys. apply app_inj_tail in Hkeys as [_ Ha].
    simpl in Ha. unfold gear_at in Hne. simpl in Hne.
    rewrite Nat.sub_0_r, Hrow, Hprev in Hne. simpl in Hne. congruence.
  - rewrite Hl, fmap_app in IH. by rewrite fmap_app.
Qed.

(** X3: the RPM segments are maximal runs: none is empty, and two
    neighbouring segments never carry the same gear. *)
Theorem rpm_segments_maximal (df : DataFrame) :
  ∃ rpm rev,
    segmenter df = Ok (rpm, rev) ∧
    Forall (λ s, rs_time s ≠ [] ∧ rs_rpm s ≠ []) rpm ∧
    neighbours_differ (rs_gear <$> rpm).
Proof.
  destruct (segmenter_total df) as (rpm & rev & Hseg).
  exists rpm, rev. split; [done|]. split.
  - destruct (rpm_groups_inv df (length df) _ Hseg) as (groups & _ & Hdrawn).
    simpl in Hdrawn. clear Hseg.
    induction Hdrawn as [|g s groups rpm (Hne & Ht & Hp & _) _ IH];
      constructor; [|done].
    rewrite Ht, Hp. by destruct g.
  - apply (rpm_neighbours_inv df (length df) _ Hseg).
Qed.

(** ** Shape and keys of the segments *)

Lemma elem_of_concat {A : Type} (ls : list (list A)) (x : A) :
  x ∈ concat ls ↔ ∃ l, l ∈ ls ∧ x ∈ l.
Proof.
  induction ls as [|l ls IH]; simpl.
  - split; [by intros ?%elem_of_nil|by intros (? & ?%elem_of_nil & _)].
  - rewrite elem_of_app, IH. split.
    + intros [?|(l' & ? & ?)]; [exists l|exists l']; split; by constructor || done.
    + intros (l' & [->|?]%elem_of_cons & ?); [by left|right; by exists l'].
Qed.

Lemma rev_nonempty_inv (df : DataFrame) (k : nat) (st : State) :
  segmenter_upto df k = Ok st → Forall (λ s, vs_time s ≠ []) st.2.
Proof.
  revert st. induction k as [|k IH]; intros st Hst.
  { rewrite segmenter_upto_0 in Hst. injection Hst as <-. constructor. }
  destruct (segmenter_upto_S_Ok df k st Hst) as (st0 & row & Hst0 & Hrow & _ & Hrev).
  specialize (IH _ Hst0).
  destruct (revmatch_step_Ok df _ row _ _ Hrow Hrev)
    as [[_ ->]|[[_ ->]|(_ & l & s & Hl & _ & ->)]]; [done|..].
  - rewrite Forall_app, Forall_singleton. done.
  - rewrite Hl, Forall_app in IH. destruct IH as [IH _].
    rewrite Forall_app, Forall_singleton. split; [done|]. simpl.
    apply snoc_not_nil.
Qed.

(** The RevMatch segments with everything known about their sources. *)
Lemma rev_groups_full (df : DataFrame) (rpm : list RpmSegment)
    (rev : list RevSegment) :
  segmenter df = Ok (rpm, rev) →
  ∃ groups : list (list (nat * Row)),
    concat groups = valid_samples df ∧
    Forall2 (λ g s, g ≠ [] ∧ drawn_from g s ∧
                    Forall (λ p, df !! p.1 = Some p.2 ∧ valid p.2 = true) g)
            groups rev.
Proof.
  intros Hseg.
  destruct (rev_groups_inv df (length df) _ Hseg) as (groups & Hcat & Hdrawn).
  pose proof (rev_nonempty_inv df (length df) _ Hseg) as Hne.
  rewrite take_ge in Hcat by done. simpl in *.
  exists groups. split; [done|].
  assert (Forall (Forall (λ p, df !! p.1 = Some p.2 ∧ valid p.2 = true)) groups)
    as Hvalid.
  { apply Forall_forall. intros g Hg. apply Forall_forall. intros [i row] Hp.
    apply valid_samples_spec. rewrite <- Hcat. apply elem_of_concat. eauto. }
  clear Hcat Hseg.
  induction Hdrawn as [|g s groups rev Hgs _ IH]; [constructor|].
  apply Forall_cons in Hne as [Hs Hne]. apply Forall_cons in Hvalid as [Hg Hvalid].
  constructor; [|by apply IH]. split_and!; [|done..].
  destruct Hgs as (Ht & _). intros ->. by rewrite Ht in Hs.
Qed.

(** X4: every RevMatch segment holds at least one point, its two columns
    have the same length, and its key is at least 1. *)
Theorem revmatch_segments_wellformed (df : DataFrame) :
  ∃ rpm rev,
    segmenter df = Ok (rpm, rev) ∧
    Forall (λ s, vs_time s ≠ [] ∧
                 length (vs_time s) = length (vs_revmatch s) ∧
                 1 ≤ vs_gear s) rev.
Proof.
  destruct (segmenter_total df) as (rpm & rev & Hseg).
  exists rpm, rev. split; [done|].
  destruct (rev_groups_full df rpm rev Hseg) as (groups & _ & Hfull).
  clear Hseg. induction Hfull as [|g s groups rev Hgs _ IH]; constructor; [|done].
  destruct Hgs as (Hne & (Ht & Hr & Hkey) & Hvalid).
  rewrite Ht, Hr, !length_fmap. split_and!; [by destruct g|done|].
  destruct g as [|p g]; [done|].
  apply Forall_cons in Hkey as [Hkey _]. apply Forall_cons in Hvalid as [[_ Hp] _].
  apply valid_spec in Hp as [Hp _]. lia.
Qed.

(** X5: there is a RevMatch segment exactly when some sample is valid: an
    input without a valid sample gives no RevMatch segment, and one valid
    sample is enough to give one. *)
Theorem revmatch_segments_none_iff (df : DataFrame) :
  ∃ rpm rev,
    segmenter df = Ok (rpm, rev) ∧
    (rev = [] ↔ Forall (λ row, valid row = false) df).
Proof.
  destruct (segmenter_total df) as (rpm & rev & Hseg).
  exists rpm, rev. split; [done|].
  destruct (rev_groups_full df rpm rev Hseg) as (groups & Hcat & Hfull).
  split.
  - intros ->. apply Forall2_nil_inv_r in Hfull as ->. simpl in Hcat.
    apply Forall_forall. intros row [i Hi]%list_elem_of_lookup.
    destruct (valid row) eqn:Hvalid; [|done].
    assert ((i, row) ∈ valid_samples df) as Hin by by apply valid_samples_spec.
    rewrite <- Hcat in Hin. by apply elem_of_nil in Hin.
  - intros Hall. destruct Hfull as [|g s groups rev (Hne & _ & Hvalid) _]; [done|].
    destruct g as [|[i row] g]; [done|].
    apply Forall_cons in Hvalid as [[Hi Hvalid] _]. simpl in *.
    rewrite Forall_forall in Hall.
    rewrite (Hall row) in Hvalid; [done|]. apply list_elem_of_lookup. eauto.
Qed.

Lemma elem_of_indexed (df : DataFrame) (i : nat) (row : Row) :
  (i, row) ∈ indexed df ↔ df !! i = Some row.
Proof. unfold indexed. rewrite elem_of_lookup_imap. naive_solver. Qed.

Lemma rpm_keys_elem (df : DataFrame) (rpm : list RpmSegment)
    (rev : list RevSegment) (k : Z) :
  segmenter df = Ok (rpm, rev) →
  k ∈ rs_gear <$> rpm ↔ k ∈ CurrentGear <$> df.
Proof.
  intros Hseg.
  destruct (rpm_groups_inv df (length df) _ Hseg) as (groups & Hcat & Hdrawn).
  rewrite take_ge in Hcat by done. simpl in Hdrawn.
  rewrite !list_elem_of_fmap. split.
  - intros (s & -> & [j Hj]%list_elem_of_lookup).
    destruct (Forall2_lookup_r _ _ _ _ _ Hdrawn Hj)
      as (g & Hg & Hne & _ & _ & Hkey).
    destruct g as [|[i row] g]; [done|].
    apply Forall_cons in Hkey as [Hkey _]. exists row. split; [done|].
    assert ((i, row) ∈ indexed df) as Hin.
    { rewrite <- Hcat. apply elem_of_concat. exists ((i, row) :: g).
      split; [apply list_elem_of_lookup; eauto|by left]. }
    apply elem_of_indexed in Hin. apply list_elem_of_lookup. eauto.
  - intros (row & -> & [i Hi]%list_elem_of_lookup).
    apply elem_of_indexed in Hi. rewrite <- Hcat in Hi.
    apply elem_of_concat in Hi as (g & [j Hj]%list_elem_of_lookup & Hin).
    destruct (Forall2_lookup_l _ _ _ _ _ Hdrawn Hj)
      as (s & Hs & _ & _ & _ & Hkey).
    rewrite Forall_forall in Hkey. exists s.
    split; [by rewrite (Hkey _ Hin)|]. apply list_elem_of_lookup. eauto.
Qed.

Lemma rev_keys_elem (df : DataFrame) (rpm : list RpmSegment)
    (rev : list RevSegment) (k : Z) :
  segmenter df = Ok (rpm, rev) →
  k ∈ vs_gear <$> rev ↔
  ∃ row, row ∈ df ∧ valid row = true ∧ k = CurrentGear row - 1.
Proof.
  intros Hseg.
  destruct (rev_groups_full df rpm rev Hseg) as (groups & Hcat & Hfull).
  rewrite list_elem_of_fmap. split.
  - intros (s & -> & [j Hj]%list_elem_of_lookup).
    destruct (Forall2_lookup_r _ _ _ _ _ Hfull Hj)
      as (g & Hg & Hne & (_ & _ & Hkey) & Hvalid).
    destruct g as [|[i row] g]; [done|].
    apply Forall_cons in Hkey as [Hkey _].
    apply Forall_cons in Hvalid as [[Hi Hvalid] _]. simpl in *.
    exists row. split_and!; [|done..]. apply list_elem_of_lookup. eauto.
  - intros (row & [i Hi]%list_elem_of_lookup & Hvalid & ->).
    assert ((i, row) ∈ concat groups) as Hin.
    { rewrite Hcat. by apply valid_samples_spec. }
    apply elem_of_concat in Hin as (g & [j Hj]%list_elem_of_lookup & Hin).
    destruct (Forall2_lookup_l _ _ _ _ _ Hfull Hj)
      as (s & Hs & _ & (_ & _ & Hkey) & _).
    rewrite Forall_forall in Hkey. exists s.
    split; [by rewrite (Hkey _ Hin)|]. apply list_elem_of_lookup. eauto.
Qed.

(** X6: the keys of the RPM segments are exactly the gears that occur in
    the data, and the keys of the RevMatch segments are exactly the values
    [gear - 1] of the valid samples. *)
Theorem segment_keys (df : DataFrame) :
  ∃ rpm rev,
    segmenter df = Ok (rpm, rev) ∧
    (∀ k, k ∈ rs_gear <$> rpm ↔ k ∈ CurrentGear <$> df) ∧
    (∀ k, k ∈ vs_gear <$> rev ↔
          ∃ row, row ∈ df ∧ valid row = true ∧ k = CurrentGear row - 1).
Proof.
  destruct (segmenter_total df) as (rpm & rev & Hseg).
  exists rpm, rev. split; [done|].
  split; intros k; [by eapply rpm_keys_elem|by eapply rev_keys_elem].
Qed.

(** ** The RPM segments do not read the other columns *)

Lemma rpm_upto_ext (df df' : DataFrame) (k : nat) :
  Forall2 same_rpm_columns df df' → rpm_upto df k = rpm_upto df' k.
Proof.
  intros Hsame. unfold rpm_upto. apply foldM_ext. intros segs i _.
  assert (∀ j, option_Forall2 same_rpm_columns (df !! j) (df' !! j)) as Hlk
    by by apply Forall2_lookup.
  unfold iloc. destruct (Hlk i) as [row row' (Ht & Hp & Hg)|]; [|done]. simpl.
  assert (new_rpm_segment row = new_rpm_segment row') as Hnew
    by (unfold new_rpm_segment; by rewrite Ht, Hp, Hg).
  assert (extend_rpm_segment row = extend_rpm_segment row') as Hext
    by (unfold extend_rpm_segment; by rewrite Ht, Hp).
  unfold rpm_step, iloc. rewrite Hnew, Hext, Hg.
  destruct (i =? 0)%nat; [done|].
  destruct (Hlk (i - 1)%nat) as [prev prev' (_ & _ & Hg')|]; [|done]. simpl.
  by rewrite Hg'.
Qed.

(** X7: the RPM segments depend on the Time, RPM and CurrentGear columns
    only: two inputs that agree on these three columns have the same RPM
    segments, whatever their RevMatch and MPH columns hold. *)
Theorem rpm_segments_ignore_revmatch (df df' : DataFrame) :
  Forall2 same_rpm_columns df df' →
  fst <$> segmenter df = fst <$> segmenter df'.
Proof.
  intros Hsame.
  destruct (segmenter_total df) as (rpm & rev & Hseg).
  destruct (segmenter_total df') as (rpm' & rev' & Hseg').
  rewrite Hseg, Hseg'. simpl. f_equal.
  apply rpm_upto_fst in Hseg, Hseg'. simpl in *.
  rewrite (rpm_upto_ext df df' _ Hsame), (Forall2_length _ _ _ Hsame) in Hseg.
  congruence.
Qed.

Lemma rpm_segments_ignore_revmatch_witness :
  let df := [sample 0 900 2 sentinel; sample 1 950 2 (1500 # 1)] in
  let df' := [sample 0 900 2 (1400 # 1); sample 1 950 2 sentinel] in
  Forall2 same_rpm_columns df df' ∧
  fst <$> segmenter df = fst <$> segmenter df'.
Proof.
  intros df df'.
  assert (Forall2 same_rpm_columns df df') as H by (repeat constructor).
  split; [exact H|]. exact (rpm_segments_ignore_revmatch df df' H).
Defined.

(** ** Colours *)

(** X8: the colour of a gear is black exactly when the gear is outside
    [1..5], and two gears share a colour only if they are equal or both
    outside [1..5]. *)
Theorem color_of_palette (k k' : Z) :
  (Legend.color_of k = "#000000" ↔ k < 1 ∨ 5 < k) ∧
  (Legend.color_of k = Legend.color_of k' ↔
   k = k' ∨ (k < 1 ∨ 5 < k) ∧ (k' < 1 ∨ 5 < k')).
Proof.
  assert (∀ j, j < 1 ∨ 5 < j → Legend.color_of j = "#000000") as Hout.
  { intros j Hj. unfold Legend.color_of, Legend.gear_colors.
    rewrite !lookup_insert_ne, lookup_singleton_ne by lia. done. }
  assert (∀ j, 1 ≤ j ≤ 5 → j = 1 ∨ j = 2 ∨ j = 3 ∨ j = 4 ∨ j = 5) as Hin
    by (intros; lia).
  assert (∀ a b : Z, a = b → Legend.color_of a = Legend.color_of b) as Hcongr
    by (by intros a b ->).
  destruct (decide (k < 1 ∨ 5 < k)) as [Hk|Hk],
           (decide (k' < 1 ∨ 5 < k')) as [Hk'|Hk'].
  - rewrite !Hout by done. split; split; auto.
  - rewrite (Hout k) by done.
    destruct (Hin k' ltac:(lia)) as [-> | [-> | [-> | [-> | ->]]]];
      (split; split; intros H; first [done | discriminate H | exfalso; lia]).
  - rewrite (Hout k') by done.
    destruct (Hin k ltac:(lia)) as [-> | [-> | [-> | [-> | ->]]]];
      (split; split; intros H; first [discriminate H | exfalso; lia]).
  - destruct (Hin k ltac:(lia)) as [-> | [-> | [-> | [-> | ->]]]];
      destruct (Hin k' ltac:(lia)) as [-> | [-> | [-> | [-> | ->]]]];
      (split; split; intros H;
       first [discriminate H | by left | exfalso; lia
             | apply Hcongr; lia]).
Qed.

(** ** The legend of a segmented trace *)

(** X9: the legend drawn for a trace, read off the samples: its keys,
    strictly ascending, are the gears that occur in the data together with
    [gear - 1] of the valid samples, so every gear of the data has an entry.
    The entry of key [k] is labelled "Gear" followed by the key as Python
    prints it and carries a solid line in the colour of [k]; it carries a
    dashed line of that colour as well exactly when some valid sample is in
    gear [k + 1]. *)
Theorem legend_of_trace (format_key : Z → string) (df : DataFrame) :
  let targeted k :=
    Exists (λ row, valid row = true ∧ CurrentGear row = k + 1) df in
  ∃ rpm rev keys,
    segmenter df = Ok (rpm, rev) ∧
    StronglySorted Z.lt keys ∧
    (∀ k, k ∈ keys ↔ k ∈ CurrentGear <$> df ∨ targeted k) ∧
    Legend.legend format_key rpm rev
    = (λ k, (({| Legend.ln_color := palette k;
                 Legend.ln_linestyle := Legend.Solid |},
              if bool_decide (targeted k)
              then Some {| Legend.ln_color := palette k;
                           Legend.ln_linestyle := Legend.Dashed |}
              else None),
             "Gear " +:+ format_key k)) <$> keys.
Proof.
  intros targeted.
  destruct (segmenter_total df) as (rpm & rev & Hseg).
  assert (∀ k, k ∈ vs_gear <$> rev ↔ targeted k) as Hrev.
  { intros k. rewrite (rev_keys_elem df rpm rev k Hseg). unfold targeted.
    rewrite Exists_exists. split.
    - intros (row & Hin & Hvalid & ->). exists row. split; [done|].
      split; [done|lia].
    - intros (row & Hin & Hvalid & Hk). exists row. split; [done|].
      split; [done|lia]. }
  exists rpm, rev, (Legend.all_gears rpm rev). split; [done|].
  split; [apply all_gears_sorted|]. split.
  - intros k. by rewrite all_gears_elem, (rpm_keys_elem df rpm rev k Hseg), Hrev.
  - rewrite legend_as_fmap. apply list_fmap_ext. intros _ k _.
    rewrite legend_element_eq. unfold Legend.gear_label.
    by rewrite (bool_decide_ext _ _ (Hrev k)).
Qed.

(** ** Drawing never fails *)

Lemma plot_each_Ok {A : Type} (plot : A → result Render.PlotCall) (f : A → Render.PlotCall)
    (segments : list A) :
  Forall (λ s, plot s = Ok (f s)) segments →
  Render.plot_each plot segments = Ok (f <$> segments).
Proof.
  induction 1 as [|s segments Hs _ IH]; [done|].
  simpl. rewrite Hs. simpl. by rewrite IH.
Qed.

Lemma ax_plot_same_length (x y : list Q) (color : string)
    (ls : Legend.LineStyle) (z : Z) :
  length x = length y →
  Render.ax_plot x y color ls z
  = Ok {| Render.pc_x := x; Render.pc_y := y; Render.pc_color := color;
          Render.pc_linestyle := ls; Render.pc_zorder := z |}.
Proof. intros H. unfold Render.ax_plot. by rewrite H, Nat.eqb_refl. Qed.

(** X10: drawing the segments of any trace never raises: every segment is
    handed to [ax.plot] with x and y of the same length.  There is one call
    per segment, the solid RPM lines first and the dashed RevMatch lines
    behind them, each in segment order and in the colour of its key. *)
Theorem plot_segments_ok (df : DataFrame) :
  ∃ rpm rev,
    segmenter df = Ok (rpm, rev) ∧
    Render.plot_segments rpm rev
    = Ok (((λ s, {| Render.pc_x := rs_time s; Render.pc_y := rs_rpm s;
                    Render.pc_color := Legend.color_of (rs_gear s);
                    Render.pc_linestyle := Legend.Solid;
                    Render.pc_zorder := 1 |}) <$> rpm)
          ++ ((λ s, {| Render.pc_x := vs_time s; Render.pc_y := vs_revmatch s;
                       Render.pc_color := Legend.color_of (vs_gear s);
                       Render.pc_linestyle := Legend.Dashed;
                       Render.pc_zorder := 2 |}) <$> rev)).
Proof.
  destruct (segmenter_total df) as (rpm & rev & Hseg).
  exists rpm, rev. split; [done|].
  destruct (rpm_points_inv df (length df) _ Hseg) as [_ Hlen].
  destruct (rev_groups_full df rpm rev Hseg) as (groups & _ & Hfull).
  unfold Render.plot_segments.
  rewrite (plot_each_Ok Render.plot_rpm_segment
             (λ s, {| Render.pc_x := rs_time s; Render.pc_y := rs_rpm s;
                      Render.pc_color := Legend.color_of (rs_gear s);
                      Render.pc_linestyle := Legend.Solid;
                      Render.pc_zorder := 1 |})).
  2:{ eapply Forall_impl; [exact Hlen|]. intros s Hs.
      by apply ax_plot_same_length. }
  simpl.
  rewrite (plot_each_Ok Render.plot_revmatch_segment
             (λ s, {| Render.pc_x := vs_time s; Render.pc_y := vs_revmatch s;
                      Render.pc_color := Legend.color_of (vs_gear s);
                      Render.pc_linestyle := Legend.Dashed;
                      Render.pc_zorder := 2 |})); [done|].
  apply (Forall2_Forall_r _ _ _ _ Hfull). apply Forall_true.
  intros g s (_ & (Ht & Hr & _) & _).
  apply ax_plot_same_length. by rewrite Ht, Hr, !length_fmap.
Qed.

(** ** From the config file to the y axis *)

(** X11: when the loader has returned, the y-axis step never reads an
    unbound variable.  It calls [set_ylim] with the two integers exactly when
    the file was opened and decoded, at least two lines are left after
    stripping whitespace and dropping blank lines and lines with a comma, and
    the first two parse; in every other case it autoscales.  The line printed
    once the call has returned tells the two cases apart.  When opening or
    reading fails with another error than a missing file, the loader does not
    return and the step is never reached. *)
Theorem y_axis_after_loader (py_int : list N → option Z)
    (file : Config.FileRead) :
  let r := Config.load_config py_int file in
  let autoscale := Some (Render.Autoscale, Render.msg_autoscale) in
  match file with
  | Config.Unreadable => r.2 = Some OSError
  | Config.Missing => r.2 = None ∧ Render.y_axis r.1 = autoscale
  | Config.Content raw =>
      r.2 = None ∧
      (None ∈ raw ∧ Render.y_axis r.1 = autoscale
       ∨ ∃ lines cl,
           raw = Some <$> lines ∧ config_lines_of lines cl ∧
           Render.y_axis r.1
           = match cl with
             | l0 :: l1 :: _ =>
                 match py_int l0, py_int l1 with
                 | Some lo, Some hi =>
                     Some (Render.SetYlim lo hi, Render.msg_ylim lo hi)
                 | _, _ => autoscale
                 end
             | _ => autoscale
             end)
  end.
Proof.
  destruct file as [| |raw]; [done..|].
  destruct (raw_cases raw) as [Hnone|[lines ->]].
  - rewrite load_config_undecodable by done. split; [done|]. by left.
  - rewrite load_config_decoded. split.
    + destruct (Config.config_lines lines) as [|l0 [|l1 cl]]; [done..|].
      destruct (py_int l0); [|done]. by destruct (py_int l1).
    + right. exists lines, (Config.config_lines lines).
      split; [done|]. split; [apply config_lines_of_spec|].
      destruct (Config.config_lines lines) as [|l0 [|l1 cl]]; [done..|].
      destruct (py_int l0); [|done]. by destruct (py_int l1).
Qed.

(** ** Lines the loader does not read *)

Lemma config_lines_dropped (x : list N) :
  blank_or_comma x → Config.config_lines [x] = [].
Proof.
  intros Hx. rewrite config_lines_cons.
  pose proof (strip_spec x) as Hstrip.
  destruct Hx as [Hblank|Hcomma].
  - apply (is_strip_of_nil _ _ Hstrip) in Hblank. rewrite Hblank. simpl. done.
  - destruct Hstrip as (pre & post & Hx & Hpre & Hpost & _).
    assert (comma ∈ Config.strip x) as Hin.
    { rewrite Hx in Hcomma at 1. rewrite !elem_of_app in Hcomma.
      rewrite Forall_forall in Hpre. rewrite Forall_forall in Hpost.
      destruct Hcomma as [H|[H|H]]; [|done|];
        destruct comma_not_whitespace; eauto. }
    apply has_comma_spec in Hin. rewrite Hin. done.
Qed.

Lemma config_lines_kept (x : list N) :
  is_config_line x → Config.config_lines [x] = [Config.strip x].
Proof.
  intros [Hblank Hcomma]. rewrite config_lines_cons.
  pose proof (strip_spec x) as Hstrip.
  assert (Config.has_comma (Config.strip x) = false) as ->.
  { apply not_true_is_false. rewrite has_comma_spec. intros Hin.
    apply Hcomma. destruct Hstrip as (pre & post & Hx & _).
    rewrite Hx at 1. rewrite !elem_of_app. auto. }
  destruct (Config.strip x) eqn:Hs; [|done].
  destruct Hblank. by apply (is_strip_of_nil _ _ Hstrip).
Qed.

Lemma fmap_Some_app_inv (l1 l2 : list (option (list N))) (lines : list (list N)) :
  l1 ++ l2 = Some <$> lines →
  ∃ a b, l1 = Some <$> a ∧ l2 = Some <$> b ∧ lines = a ++ b.
Proof.
  intros H. symmetry in H. apply fmap_app_inv in H as (a & b & -> & -> & ->).
  by exists a, b.
Qed.

(** X12: blank lines and lines holding a comma are invisible to the loader:
    putting one such (decodable) line anywhere in the file changes neither the
    bounds nor the message, nor whether the loader returns. *)
Theorem load_config_skips_dropped (py_int : list N → option Z)
    (l1 l2 : list (option (list N))) (x : list N) :
  blank_or_comma x →
  Config.load_config py_int (Config.Content (l1 ++ Some x :: l2))
  = Config.load_config py_int (Config.Content (l1 ++ l2)).
Proof.
  intros Hx. destruct (raw_cases (l1 ++ l2)) as [Hnone|[lines Hlines]].
  - rewrite !load_config_undecodable; [done..|].
    rewrite elem_of_app in Hnone |- *. rewrite elem_of_cons. naive_solver.
  - apply fmap_Some_app_inv in Hlines as (a & b & -> & -> & _).
    change (Some x :: (Some <$> b)) with (Some <$> (x :: b)).
    rewrite <- !fmap_app, !load_config_decoded.
    change (x :: b) with ([x] ++ b).
    by rewrite !config_lines_app, (config_lines_dropped x Hx).
Qed.

Lemma load_config_skips_dropped_witness :
  let x := [0xA0; 0x20]%N ++ line "1000,7000" in
  blank_or_comma x ∧
  Config.load_config Config.decimal_int
    (Config.Content ([Some (line "1000")] ++ Some x :: [Some (line "7000")]))
  = Config.load_config Config.decimal_int
      (Config.Content ([Some (line "1000")] ++ [Some (line "7000")])).
Proof.
  intros x.
  assert (blank_or_comma x) as H.
  { right. apply has_comma_spec. reflexivity. }
  split; [exact H|].
  exact (load_config_skips_dropped Config.decimal_int _ _ x H).
Defined.

(** X13: only the first two config lines are read: once a decodable file
    holds two lines that are neither blank nor hold a comma, whatever
    decodable lines follow (valid or not) change nothing. *)
Theorem load_config_first_two (py_int : list N → option Z)
    (a b c l2 : list (list N)) (x y : list N) :
  is_config_line x → is_config_line y →
  Config.load_config py_int
    (Config.Content (Some <$> (a ++ x :: b ++ y :: c) ++ l2))
  = Config.load_config py_int
      (Config.Content (Some <$> a ++ x :: b ++ y :: c)).
Proof.
  intros Hx Hy. rewrite !load_config_decoded, config_lines_app.
  assert (2 ≤ length (Config.config_lines (a ++ x :: b ++ y :: c)))%nat as Hlen.
  { change (x :: b ++ y :: c) with ([x] ++ b ++ [y] ++ c).
    rewrite !config_lines_app, (config_lines_kept x Hx), (config_lines_kept y Hy).
    rewrite !length_app. simpl. lia. }
  destruct (Config.config_lines (a ++ x :: b ++ y :: c)) as [|p [|q cl]];
    simpl in Hlen; [lia..|]. done.
Qed.

Lemma load_config_first_two_witness :
  let x := line "1000" in
  let y := [0x20; 0xA0]%N ++ line "7000" in
  is_config_line x ∧ is_config_line y ∧
  Config.load_config Config.decimal_int
    (Config.Content (Some <$> ([] ++ x :: [line ""] ++ y :: []) ++ [line "oops"]))
  = Config.load_config Config.decimal_int
      (Config.Content (Some <$> [] ++ x :: [line ""] ++ y :: [])).
Proof.
  intros x y.
  assert (∀ z, Config.has_comma z = false → Config.strip z ≠ [] →
               is_config_line z) as Hcl.
  { intros z Hc Hs. split.
    - intros Hb. apply Hs. by apply (is_strip_of_nil _ _ (strip_spec z)).
    - rewrite <- has_comma_spec. congruence. }
  assert (is_config_line x) as Hx by (apply Hcl; [reflexivity|discriminate]).
  assert (is_config_line y) as Hy by (apply Hcl; [reflexivity|discriminate]).
  split; [exact Hx|]. split; [exact Hy|].
  exact (load_config_first_two Config.decimal_int [] [line ""] [] [line "oops"]
           x y Hx Hy).
Defined.

(** ** The ratio table *)

Lemma gears_lookup_cases (k : Z) (r : Q) :
  Ratio.gears !! k = Some r →
  k = 1 ∧ r = (37 # 11)%Q ∨ k = 2 ∧ r = (41 # 22)%Q ∨ k = 3 ∧ r = (37 # 28)%Q
  ∨ k = 4 ∧ r = (35 # 34)%Q ∨ k = 5 ∧ r = (32 # 39)%Q.
Proof.
  intros H. destruct (decide (1 ≤ k ≤ 5)) as [Hk|Hk].
  - assert (k = 1 ∨ k = 2 ∨ k = 3 ∨ k = 4 ∨ k = 5)
      as [-> | [-> | [-> | [-> | ->]]]] by lia;
      vm_compute in H; injection H as <-;
      first [by left | by right; left | by do 2 right; left
            | by do 3 right; left | by do 4 right].
  - unfold Ratio.gears in H.
    rewrite !lookup_insert_ne, lookup_singleton_ne in H by lia. done.
Qed.

Lemma gears_in_table (k : Z) : is_Some (Ratio.gears !! k) ↔ 1 ≤ k ≤ 5.
Proof.
  split.
  - intros [r Hr]. apply gears_lookup_cases in Hr. lia.
  - intros Hk.
    assert (k = 1 ∨ k = 2 ∨ k = 3 ∨ k = 4 ∨ k = 5)
      as [-> | [-> | [-> | [-> | ->]]]] by lia; by eexists.
Qed.

Lemma in_table_range (df : DataFrame) :
  in_table df ↔ Forall (λ row, 1 ≤ CurrentGear row ≤ 5) df.
Proof.
  unfold in_table. apply Forall_proper; [|done]. intros row.
  apply gears_in_table.
Qed.

Lemma theoretical_Ok (row : Row) (v : Q) :
  Ratio.theoretical row = Ok v →
  ∃ r, Ratio.gears !! CurrentGear row = Some r ∧
       v = (((1056 # 1) * MPH row * Ratio.finaldrive * r)
            / Ratio.wheelCircumference)%Q.
Proof.
  unfold Ratio.theoretical, Ratio.gears_lookup.
  destruct (Ratio.gears !! CurrentGear row) as [r|]; [|done].
  simpl. intros [= <-]. by exists r.
Qed.

Lemma Qdiv_lt_compat (x y c : Q) : (0 < c → x < y → x / c < y / c)%Q.
Proof.
  intros Hc H. unfold Qdiv.
  apply Qmult_lt_compat_r; [by apply Qinv_lt_0_compat|done].
Qed.

(** X14: at one and the same positive speed, a higher gear always has the
    lower theoretical RPM. *)
Theorem theoretical_decreases_with_gear (r1 r2 : Row) (v1 v2 : Q) :
  Ratio.theoretical r1 = Ok v1 →
  Ratio.theoretical r2 = Ok v2 →
  (MPH r1 == MPH r2)%Q →
  (0 < MPH r1)%Q →
  CurrentGear r1 < CurrentGear r2 →
  (v2 < v1)%Q.
Proof.
  intros (q1 & Hq1 & ->)%theoretical_Ok (q2 & Hq2 & ->)%theoretical_Ok
         Hmph Hpos Hgear.
  apply gears_lookup_cases in Hq1, Hq2.
  unfold Ratio.finaldrive, Ratio.wheelCircumference.
  apply Qdiv_lt_compat; [reflexivity|].
  destruct Hq1 as [[? ->]|[[? ->]|[[? ->]|[[? ->]|[? ->]]]]],
           Hq2 as [[? ->]|[[? ->]|[[? ->]|[[? ->]|[? ->]]]]];
    try lia; lra.
Qed.

Lemma theoretical_decreases_with_gear_witness :
  let r1 := mkRow 0 3000 2 0 30 in
  let r2 := mkRow 0 2500 3 0 30 in
  ∃ v1 v2,
    Ratio.theoretical r1 = Ok v1 ∧ Ratio.theoretical r2 = Ok v2 ∧
    (MPH r1 == MPH r2)%Q ∧ (0 < MPH r1)%Q ∧
    CurrentGear r1 < CurrentGear r2 ∧ (v2 < v1)%Q.
Proof.
  intros r1 r2. eexists _, _.
  assert (MPH r1 == MPH r2)%Q as H3 by reflexivity.
  assert (0 < MPH r1)%Q as H4 by reflexivity.
  assert (CurrentGear r1 < CurrentGear r2) as H5 by reflexivity.
  split; [reflexivity|]. split; [reflexivity|].
  split; [exact H3|]. split; [exact H4|]. split; [exact H5|].
  exact (theoretical_decreases_with_gear r1 r2 _ _ eq_refl eq_refl H3 H4 H5).
Defined.

(** X15: within one gear the theoretical RPM is proportional to the speed,
    with a positive factor: it is 0 at speed 0 and grows with the speed. *)
Theorem theoretical_proportional (r1 r2 : Row) (v1 v2 : Q) :
  Ratio.theoretical r1 = Ok v1 →
  Ratio.theoretical r2 = Ok v2 →
  CurrentGear r1 = CurrentGear r2 →
  ∃ c : Q, (0 < c)%Q ∧ (v1 == c * MPH r1)%Q ∧ (v2 == c * MPH r2)%Q.
Proof.
  intros (q1 & Hq1 & ->)%theoretical_Ok (q2 & Hq2 & ->)%theoretical_Ok Hgear.
  rewrite <- Hgear, Hq1 in Hq2. injection Hq2 as <-.
  exists (((1056 # 1) * Ratio.finaldrive * q1) / Ratio.wheelCircumference)%Q.
  split; [|split; unfold Qdiv; ring].
  apply gears_lookup_cases in Hq1.
  destruct Hq1 as [[? ->]|[[? ->]|[[? ->]|[[? ->]|[? ->]]]]]; reflexivity.
Qed.

Lemma theoretical_proportional_witness :
  let r1 := mkRow 0 3000 2 0 30 in
  let r2 := mkRow 0 2500 2 0 45 in
  ∃ v1 v2,
    Ratio.theoretical r1 = Ok v1 ∧ Ratio.theoretical r2 = Ok v2 ∧
    CurrentGear r1 = CurrentGear r2 ∧
    ∃ c : Q, (0 < c)%Q ∧ (v1 == c * MPH r1)%Q ∧ (v2 == c * MPH r2)%Q.
Proof.
  intros r1 r2. eexists _, _.
  split; [reflexivity|]. split; [reflexivity|]. split; [reflexivity|].
  exact (theoretical_proportional r1 r2 _ _ eq_refl eq_refl eq_refl).
Defined.

(** ** How a run of the ratio analysis ends *)

Lemma apply_rows_first_missing (pre post : DataFrame) (row : Row) :
  in_table pre →
  Ratio.gears !! CurrentGear row = None →
  Ratio.apply_rows (pre ++ row :: post) = Raise (KeyError (CurrentGear row)).
Proof.
  intros Hpre Hrow. induction Hpre as [|r pre [q Hq] _ IH]; simpl.
  - unfold Ratio.with_theoretical, Ratio.theoretical, Ratio.gears_lookup.
    by rewrite Hrow.
  - unfold Ratio.with_theoretical at 1.
    unfold Ratio.theoretical, Ratio.gears_lookup.
    rewrite Hq. simpl. by rewrite IH.
Qed.

(** X16: the [KeyError] of line 42 names the gear of the first row whose
    gear is outside [1..5]; rows behind it are never looked at, and nothing
    is drawn. *)
Theorem ratio_first_missing_gear (pre post : DataFrame) (row : Row) :
  Forall (λ r, 1 ≤ CurrentGear r ≤ 5) pre →
  ¬ (1 ≤ CurrentGear row ≤ 5) →
  Ratio.ratio_analysis (pre ++ row :: post)
  = ([Ratio.EvPrintDtypes], Raise (KeyError (CurrentGear row))).
Proof.
  intros Hpre%in_table_range Hrow.
  unfold Ratio.ratio_analysis. rewrite apply_rows_first_missing; [done..|].
  apply eq_None_not_Some. by rewrite gears_in_table.
Qed.

Lemma ratio_first_missing_gear_witness :
  let pre := [mkRow 0 3000 1 0 10]%Q in
  let row := mkRow 0 3000 6 0 5 in
  let post := [mkRow 0 3000 0 0 5]%Q in
  Forall (λ r, 1 ≤ CurrentGear r ≤ 5) pre ∧
  ¬ (1 ≤ CurrentGear row ≤ 5) ∧
  Ratio.ratio_analysis (pre ++ row :: post)
  = ([Ratio.EvPrintDtypes], Raise (KeyError (CurrentGear row))).
Proof.
  intros pre row post.
  assert (Forall (λ r, 1 ≤ CurrentGear r ≤ 5) pre) as H1
    by (repeat constructor; simpl; lia).
  assert (¬ (1 ≤ CurrentGear row ≤ 5)) as H2 by (simpl; lia).
  split; [exact H1|]. split; [exact H2|].
  exact (ratio_first_missing_gear pre post row H1 H2).
Defined.

(** X17: on non-empty data the script runs to the end exactly when every
    gear is in [1..5] and the gears present are [1..n] without a gap; in
    every other case it stops with an exception.  (An empty frame is left
    out: what pandas does with it on line 42 is not modelled.) *)
Theorem ratio_completes_iff (df : DataFrame) :
  df ≠ [] →
  (Ratio.ratio_analysis df).2 = Ok () ↔
  Forall (λ row, 1 ≤ CurrentGear row ≤ 5) df ∧
  gears_present df = dense (size (gears_present df)).
Proof.
  intros _. rewrite <- in_table_range.
  destruct (decide (in_table df)) as [Htable|Htable].
  - destruct (apply_rows_Ok df Htable) as (actual & Hok & Hgears & _).
    apply gears_present_fmap in Hgears.
    rewrite (ratio_analysis_Ok _ _ Hok), groupby_size, Hgears. simpl.
    destruct (decide (gears_present df = dense (size (gears_present df))))
      as [Hdense|Hgap].
    + rewrite group_loop_all; [done|].
      apply Forall_forall. intros i Hi%elem_of_seq.
      apply groupby_present. rewrite Hgears, Hdense. apply elem_of_dense.
      exists i. split; [lia|done].
    + destruct (first_gap (gears_present df) _ eq_refl Hgap)
        as (j & Hj & Hmiss & Hbefore).
      rewrite (seq_split _ _ Hj), group_loop_gap.
      * simpl. split; [done|]. by intros [_ ?].
      * apply Forall_forall. intros i Hi%elem_of_seq.
        apply groupby_present. rewrite Hgears. apply Hbefore. lia.
      * apply groupby_absent. by rewrite Hgears.
  - destruct (apply_rows_Raise df Htable) as (k & _ & _ & Hraise).
    unfold Ratio.ratio_analysis. rewrite Hraise. simpl.
    split; [done|]. by intros [? _].
Qed.

Lemma ratio_completes_iff_witness :
  let df := [mkRow 0 3000 1 0 10; mkRow 0 2000 2 0 10]%Q in
  df ≠ [] ∧
  ((Ratio.ratio_analysis df).2 = Ok () ↔
   Forall (λ row, 1 ≤ CurrentGear row ≤ 5) df ∧
   gears_present df = dense (size (gears_present df))).
Proof.
  intros df. split; [discriminate|].
  exact (ratio_completes_iff df ltac:(discriminate)).
Defined.

(** ** What the plotting and fitting calls are given *)

#[local] Instance mph_le_total : Total Ratio.mph_le.
Proof.
  intros a b. unfold Ratio.mph_le.
  destruct (Qlt_le_dec (MPH b) (MPH a)) as [Hlt|Hle].
  - right. apply Is_true_true, Qle_bool_iff. by apply Qlt_le_weak.
  - left. by apply Is_true_true, Qle_bool_iff.
Qed.

Lemma sort_values_sorted (g : list Row) :
  Sorted Qle (MPH <$> Ratio.sort_values g).
Proof.
  unfold Ratio.sort_values.
  apply (Sorted_fmap MPH Ratio.mph_le Qle).
  - intros a b Hab. unfold Ratio.mph_le in Hab.
    by apply Qle_bool_iff, Is_true_true.
  - apply (Sorted_merge_sort Ratio.mph_le).
Qed.

Lemma sort_values_length (g : list Row) :
  length (Ratio.sort_values g) = length g.
Proof. unfold Ratio.sort_values. by rewrite merge_sort_Permutation. Qed.

Lemma insert_unique_HdRel (a x : Q) (l : list Q) :
  (a < x)%Q → HdRel Qlt a l → HdRel Qlt a (Ratio.insert_unique x l).
Proof.
  intros Hax Hl. destruct l as [|y l]; simpl; [by constructor|].
  apply HdRel_inv in Hl.
  destruct (Qcompare_spec x y); by constructor.
Qed.

Lemma insert_unique_sorted (x : Q) (l : list Q) :
  Sorted Qlt l → Sorted Qlt (Ratio.insert_unique x l).
Proof.
  induction 1 as [|y l Hl IH Hy]; simpl; [by repeat constructor|].
  destruct (Qcompare_spec x y) as [Heq|Hlt|Hgt].
  - by constructor.
  - constructor; [by constructor|by constructor].
  - constructor; [done|]. by apply insert_unique_HdRel.
Qed.

Lemma insert_unique_not_nil (x : Q) (l : list Q) :
  Ratio.insert_unique x l ≠ [].
Proof. destruct l as [|y l]; simpl; [done|]. by destruct (x ?= y)%Q. Qed.

Lemma np_unique_sorted (l : list Q) : Sorted Qlt (Ratio.np_unique l).
Proof.
  unfold Ratio.np_unique. induction l as [|x l IH]; simpl; [constructor|].
  by apply insert_unique_sorted.
Qed.

Lemma np_unique_not_nil (l : list Q) : l ≠ [] → Ratio.np_unique l ≠ [].
Proof.
  destruct l as [|x l]; [done|]. intros _. apply insert_unique_not_nil.
Qed.

Lemma group_loop_events (df : DataFrame) (idxs : list nat) (ev : Ratio.Event) :
  ev ∈ (Ratio.group_loop (Ratio.groupby df) idxs).1 →
  ∃ g, g ≠ [] ∧ ev ∈ Ratio.group_events g.
Proof.
  induction idxs as [|i idxs IH]; [by intros ?%elem_of_nil|].
  cbn [Ratio.group_loop]. unfold Ratio.get_group.
  destruct (Ratio.groupby df !! (Z.of_nat i + 1)) as [g|] eqn:Hg;
    [|by intros ?%elem_of_nil].
  cbn [fst]. intros [Hev|Hev]%elem_of_app; [|by apply IH].
  exists g. split; [|done]. rewrite groupby_lookup in Hg.
  destruct (rows_of_gear df (Z.of_nat i + 1)); [done|]. by injection Hg as <-.
Qed.

(** X18: whatever the data and however the run ends, the calls it makes are
    well-formed: every curve is given x and y of the same length with the
    speeds ascending, [np.polyfit] is never given an empty vector or vectors
    of different lengths, and the fitted line is drawn over strictly
    ascending RPM values. *)
Theorem ratio_calls_wellformed (df : DataFrame) (ev : Ratio.Event) :
  ev ∈ (Ratio.ratio_analysis df).1 →
  match ev with
  | Ratio.EvPlot xs ys _ => length xs = length ys ∧ Sorted Qle ys
  | Ratio.EvPolyfit x y _ => x ≠ [] ∧ length x = length y
  | Ratio.EvPlotFitted xs _ => xs ≠ [] ∧ Sorted Qlt xs
  | Ratio.EvPrint g => g ≠ []
  | _ => True
  end.
Proof.
  unfold Ratio.ratio_analysis.
  destruct (Ratio.apply_rows df) as [actual|e]; simpl.
  2:{ intros ->%list_elem_of_singleton. done. }
  intros [->|Hev]%elem_of_cons; [done|].
  apply group_loop_events in Hev as (g & Hg & Hev).
  assert (Ratio.sort_values g ≠ []) as Hsort.
  { intros H. apply (f_equal length) in H. rewrite sort_values_length in H.
    by destruct g. }
  unfold Ratio.group_events in Hev.
  repeat (apply elem_of_cons in Hev as [->|Hev]);
    [| | | | |by apply elem_of_nil in Hev].
  - done.
  - split; [by rewrite !length_fmap|apply sort_values_sorted].
  - split; [|by rewrite !length_fmap].
    by destruct (Ratio.sort_values g).
  - split; [|apply np_unique_sorted]. apply np_unique_not_nil.
    by destruct (Ratio.sort_values g).
  - done.
Qed.

Lemma ratio_calls_wellformed_witness :
  let df := [mkRow 0 3000 1 0 10; mkRow 0 2900 1 0 5]%Q in
  let ev := Ratio.EvPolyfit [2900; 3000]%Q [5; 10]%Q 1 in
  ev ∈ (Ratio.ratio_analysis df).1 ∧
  [2900; 3000]%Q ≠ [] ∧ length [2900; 3000]%Q = length [5; 10]%Q.
Proof.
  intros df ev.
  assert (ev ∈ (Ratio.ratio_analysis df).1) as H
    by (vm_compute; do 3 right; left).
  split; [exact H|]. exact (ratio_calls_wellformed df ev H).
Defined.

(** ** The closing diagnostics *)

(** X19: the "Gears present" line lists, strictly ascending, exactly the
    gears that occur in the data; it is the list of legend keys that the RPM
    segments alone give. *)
Theorem gears_printed_spec (df : DataFrame) :
  ∃ rpm rev,
    segmenter df = Ok (rpm, rev) ∧
    Diagnostics.gears_printed df = Legend.all_gears rpm [] ∧
    StronglySorted Z.lt (Diagnostics.gears_printed df) ∧
    ∀ k, k ∈ Diagnostics.gears_printed df ↔ k ∈ CurrentGear <$> df.
Proof.
  destruct (segmenter_total df) as (rpm & rev & Hseg).
  exists rpm, rev. split; [done|].
  assert (∀ k, k ∈ Diagnostics.gears_printed df ↔ k ∈ CurrentGear <$> df) as Hel.
  { intros k. unfold Diagnostics.gears_printed.
    by rewrite merge_sort_Permutation, elem_of_remove_dups. }
  assert (NoDup (Diagnostics.gears_printed df)) as Hnd.
  { unfold Diagnostics.gears_printed. rewrite merge_sort_Permutation.
    apply NoDup_remove_dups. }
  assert (StronglySorted Z.le (Diagnostics.gears_printed df)) as Hsorted
    by apply (StronglySorted_merge_sort Z.le).
  split_and!; [|by apply sorted_NoDup_strict|done].
  apply (StronglySorted_unique Z.le); [done| |].
  - apply (StronglySorted_merge_sort Z.le).
  - apply NoDup_Permutation; [done| |].
    + unfold Legend.all_gears. rewrite merge_sort_Permutation.
      apply NoDup_elements.
    + intros k. rewrite Hel, all_gears_elem, <- (rpm_keys_elem df rpm rev k Hseg).
      rewrite fmap_nil, elem_of_nil. naive_solver.
Qed.

Lemma series_min_spec (l : list Q) :
  match Diagnostics.series_min l with
  | None => l = []
  | Some m => m ∈ l ∧ Forall (λ x, m <= x)%Q l
  end.
Proof.
  induction l as [|x l IH]; [done|].
  unfold Diagnostics.series_min in *. simpl.
  destruct (foldr _ None l) as [m|].
  - destruct IH as [Hin Hall].
    destruct (Qle_bool x m) eqn:Hle.
    + apply Qle_bool_iff in Hle. split; [by left|].
      constructor; [apply Qle_refl|].
      eapply Forall_impl; [exact Hall|]. intros y Hy. by eapply Qle_trans.
    + split; [by right|]. constructor; [|done].
      apply Qlt_le_weak, Qnot_le_lt. intros H%Qle_bool_iff. congruence.
  - subst l. split; [by left|]. repeat constructor. apply Qle_refl.
Qed.

Lemma series_max_spec (l : list Q) :
  match Diagnostics.series_max l with
  | None => l = []
  | Some m => m ∈ l ∧ Forall (λ x, x <= m)%Q l
  end.
Proof.
  induction l as [|x l IH]; [done|].
  unfold Diagnostics.series_max in *. simpl.
  destruct (foldr _ None l) as [m|].
  - destruct IH as [Hin Hall].
    destruct (Qle_bool m x) eqn:Hle.
    + apply Qle_bool_iff in Hle. split; [by left|].
      constructor; [apply Qle_refl|].
      eapply Forall_impl; [exact Hall|]. intros y Hy.
      by apply (Qle_trans _ m).
    + split; [by right|]. constructor; [|done].
      apply Qlt_le_weak, Qnot_le_lt. intros H%Qle_bool_iff. congruence.
  - subst l. split; [by left|]. repeat constructor. apply Qle_refl.
Qed.

Lemma revmatch_kept_elem (df : DataFrame) (x : Q) :
  x ∈ Diagnostics.revmatch_kept df ↔
  x ∈ RevMatch <$> df ∧ ¬ (x == sentinel)%Q.
Proof.
  unfold Diagnostics.revmatch_kept. rewrite list_elem_of_filter.
  rewrite <- Qeq_bool_iff. destruct (Qeq_bool x sentinel); naive_solver.
Qed.

(** X20: the "RevMatch range" line never reports the sentinel.  When some
    sample has a revmatch other than [-1], the two numbers are revmatch
    values of such samples and bound all of them from below and above; when
    none has, both are [nan]. *)
Theorem revmatch_range_spec (df : DataFrame) :
  match Diagnostics.revmatch_range df with
  | (Some lo, Some hi) =>
      (lo ∈ RevMatch <$> df ∧ ¬ (lo == sentinel)%Q) ∧
      (hi ∈ RevMatch <$> df ∧ ¬ (hi == sentinel)%Q) ∧
      Forall (λ row, (RevMatch row == sentinel)%Q
                     ∨ (lo <= RevMatch row)%Q ∧ (RevMatch row <= hi)%Q) df
  | (None, None) => Forall (λ row, (RevMatch row == sentinel)%Q) df
  | _ => False
  end.
Proof.
  unfold Diagnostics.revmatch_range.
  pose proof (series_min_spec (Diagnostics.revmatch_kept df)) as Hmin.
  pose proof (series_max_spec (Diagnostics.revmatch_kept df)) as Hmax.
  destruct (Diagnostics.series_min _) as [lo|],
           (Diagnostics.series_max _) as [hi|].
  - destruct Hmin as [Hlo Hmin], Hmax as [Hhi Hmax].
    apply revmatch_kept_elem in Hlo, Hhi. split; [done|]. split; [done|].
    rewrite Forall_forall in Hmin. rewrite Forall_forall in Hmax.
    apply Forall_forall. intros row Hrow.
    destruct (Qeq_bool (RevMatch row) sentinel) eqn:Heq.
    + left. by apply Qeq_bool_iff.
    + right. apply Qeq_bool_neq in Heq.
      assert (RevMatch row ∈ Diagnostics.revmatch_kept df) as Hin.
      { apply revmatch_kept_elem. split; [|done]. by apply list_elem_of_fmap_2. }
      split; [by apply Hmin|by apply Hmax].
  - destruct Hmin as [Hlo _]. rewrite Hmax in Hlo. by apply elem_of_nil in Hlo.
  - destruct Hmax as [Hhi _]. rewrite Hmin in Hhi. by apply elem_of_nil in Hhi.
  - apply Forall_forall. intros row Hrow.
    destruct (Qeq_bool (RevMatch row) sentinel) eqn:Heq;
      [by apply Qeq_bool_iff|].
    apply Qeq_bool_neq in Heq.
    assert (RevMatch row ∈ Diagnostics.revmatch_kept df) as Hin.
    { apply revmatch_kept_elem. split; [|done]. by apply list_elem_of_fmap_2. }
    rewrite Hmin in Hin. by apply elem_of_nil in Hin.
Qed.

(** ** Every drawn line has its legend entry *)

(** X21: for any two segment lists, each RPM segment finds in the legend
    the entry of its key, labelled "Gear" followed by the key as Python prints
    it, whose first line is solid and in the colour of the key; each RevMatch
    segment finds the entry of its key, with a dashed line in the colour of
    the key beside the solid one. *)
Theorem legend_covers_segments (format_key : Z → string)
    (rpm : list RpmSegment) (rev : list RevSegment) :
  Forall (λ s, ∃ dashed,
            (({| Legend.ln_color := palette (rs_gear s);
                 Legend.ln_linestyle := Legend.Solid |}, dashed),
             "Gear " +:+ format_key (rs_gear s))
            ∈ Legend.legend format_key rpm rev) rpm ∧
  Forall (λ s,
            (({| Legend.ln_color := palette (vs_gear s);
                 Legend.ln_linestyle := Legend.Solid |},
              Some {| Legend.ln_color := palette (vs_gear s);
                      Legend.ln_linestyle := Legend.Dashed |}),
             "Gear " +:+ format_key (vs_gear s))
            ∈ Legend.legend format_key rpm rev) rev.
Proof.
  rewrite legend_as_fmap. split; apply Forall_forall; intros s Hs.
  - exists (Legend.legend_element rev (rs_gear s)).2.
    apply list_elem_of_fmap. exists (rs_gear s). split.
    + rewrite legend_element_eq. done.
    + apply all_gears_elem. left. by apply list_elem_of_fmap_2.
  - apply list_elem_of_fmap. exists (vs_gear s).
    assert (vs_gear s ∈ vs_gear <$> rev) as Hin by by apply list_elem_of_fmap_2.
    split.
    + rewrite legend_element_eq. by rewrite bool_decide_eq_true_2.
    + apply all_gears_elem. by right.
Qed.
